(** * Table uniformity scoring (CSVsniffer, MAD/entropy variant)

    A shallow embedding of [table_uniformity_MAD_EPY.py] (class
    [t_uniformity]) and [table_score_MAD_EPY.py] (class [t_score]),
    followed by the properties of the scoring algorithm.

    Python values are embedded as follows.
    - [int] is [Z]; [str] is [string]; [list] is [list]; [None] is the
      [None] of an [option].
    - [float] is any type [F] carrying the operations of the class
      [Float].  Two instances are given: the real numbers (exact
      arithmetic, used for the algebraic properties) and IEEE-754
      binary64 with round-to-nearest-even, which is what CPython runs
      (used to evaluate the code on concrete inputs).
    - an exception is the left injection of [result]; a method is a
      function of the instance and of the trace of calls made so far to
      the external collaborators (type detector, quote stripper, CSV
      parser). *)

From Stdlib Require Import ZArith List String Ascii Bool Lia PeanoNat.
From Stdlib Require Import Reals Lra.
From Stdlib Require Import SpecFloat.
Import ListNotations.

Set Implicit Arguments.
Local Open Scope Z_scope.

(* ================================================================== *)
(** * Exceptions and the two monads                                     *)
(* ================================================================== *)

Inductive exn : Type :=
| ValueError
| TypeError
| AttributeError
| ZeroDivisionError
| StatisticsError.

(** Pure code that may raise. *)
Definition result (A : Type) : Type := (exn + A)%type.

Definition ret {A} (a : A) : result A := inr a.
Definition raise {A} (e : exn) : result A := inl e.
Definition bind {A B} (m : result A) (k : A -> result B) : result B :=
  match m with
  | inl e => inl e
  | inr a => k a
  end.

Declare Scope py_scope.
Delimit Scope py_scope with py.
Notation "x <- m ;; k" := (bind m (fun x => k))
  (at level 61, m at next level, right associativity) : py_scope.

Fixpoint mapM {A B} (f : A -> result B) (l : list A) : result (list B) :=
  match l with
  | [] => ret []
  | a :: l' =>
      bind (f a) (fun b => bind (mapM f l') (fun bs => ret (b :: bs)))
  end.

Fixpoint foldM {A B} (f : B -> A -> result B) (l : list A) (b : B)
  : result B :=
  match l with
  | [] => ret b
  | a :: l' => bind (f b a) (fun b' => foldM f l' b')
  end.

(** Calls that leave the module under study. *)
Inductive event : Type :=
| ev_type_detector
| ev_trip_quotes (field : string)
| ev_detect_type (cleaned_field : string) (is_quoted : bool)
| ev_fromCSV (file_path : string) (threshold : Z) (encoding : string).

(** A method of a class whose instances have type [S]: it reads and
    writes the instance, appends to the trace, and returns or raises.
    The instance and the trace survive an exception, as in Python. *)
Definition M (S A : Type) : Type :=
  S -> list event -> result A * S * list event.

Definition mret {S A} (a : A) : M S A := fun s tr => (inr a, s, tr).
Definition mraise {S A} (e : exn) : M S A := fun s tr => (inl e, s, tr).
Definition mbind {S A B} (m : M S A) (k : A -> M S B) : M S B :=
  fun s tr =>
    match m s tr with
    | (inl e, s', tr') => (inl e, s', tr')
    | (inr a, s', tr') => k a s' tr'
    end.
Definition lift {S A} (r : result A) : M S A := fun s tr => (r, s, tr).
Definition get {S} : M S S := fun s tr => (inr s, s, tr).
Definition put {S} (s' : S) : M S unit := fun _ tr => (inr tt, s', tr).
Definition emit {S} (e : event) : M S unit :=
  fun s tr => (inr tt, s, tr ++ [e]).

Declare Scope method_scope.
Delimit Scope method_scope with method.
Notation "x <~ m ;; k" := (mbind m (fun x => k))
  (at level 61, m at next level, right associativity) : method_scope.
Notation "m ;;; k" := (mbind m (fun _ => k))
  (at level 61, right associativity) : method_scope.

Fixpoint mfoldM {S A B} (f : B -> A -> M S B) (l : list A) (b : B)
  : M S B :=
  match l with
  | [] => mret b
  | a :: l' => mbind (f b a) (fun b' => mfoldM f l' b')
  end.

(* ================================================================== *)
(** * Floating-point interface                                          *)
(* ================================================================== *)

(** The operations of Python's [float] that the module uses. [of_Z] is
    the conversion [float(i)]; [lit n d] is the literal whose decimal
    value is [n/d]; [feqb] and [fltb] are [==] and [<]. *)
Class Float (F : Type) : Type := {
  of_Z : Z -> F;
  lit : Z -> positive -> F;
  fadd : F -> F -> F;
  fsub : F -> F -> F;
  fmul : F -> F -> F;
  fdiv : F -> F -> F;
  fabs : F -> F;
  feqb : F -> F -> bool;
  fltb : F -> F -> bool
}.

(** The functions taken from module [math]. *)
Class FloatMath (F : Type) : Type := {
  math_log2 : F -> F;
  math_pow : F -> Z -> F
}.

(* ================================================================== *)
(** * Python built-ins and [statistics.median]                          *)
(* ================================================================== *)

Module Py.
Section Builtins.
Context {F : Type} `{Float F}.

Definition len {A} (l : list A) : Z := Z.of_nat (List.length l).

(** [x / y] on floats. *)
Definition truediv (x y : F) : result F :=
  if feqb y (of_Z 0) then raise ZeroDivisionError else ret (fdiv x y).

(** [a / b] on ints: the quotient is a float. *)
Definition int_truediv (a b : Z) : result F :=
  if b =? 0 then raise ZeroDivisionError
  else ret (fdiv (of_Z a) (of_Z b)).

(** [x / b] with a float numerator and an int denominator. *)
Definition truediv_int (x : F) (b : Z) : result F :=
  if b =? 0 then raise ZeroDivisionError else ret (fdiv x (of_Z b)).

(** [sum(l)]: left to right, from the int [0]. *)
Definition sum (l : list F) : F := fold_left fadd l (of_Z 0).

(** [max(l)] on a non-empty list: the first largest element. *)
Definition max (l : list F) : result F :=
  match l with
  | [] => raise ValueError
  | x :: l' => ret (fold_left (fun m y => if fltb m y then y else m) l' x)
  end.

Definition max_int (l : list Z) : result Z :=
  match l with
  | [] => raise ValueError
  | x :: l' => ret (fold_left (fun m y => if m <? y then y else m) l' x)
  end.

(** [sorted(l)]: a stable sort that only uses [<]. *)
Fixpoint insert (x : F) (l : list F) : list F :=
  match l with
  | [] => [x]
  | y :: l' => if fltb x y then x :: l else y :: insert x l'
  end.

Definition sorted (l : list F) : list F :=
  fold_left (fun acc x => insert x acc) l [].

(** [statistics.median(data)]. *)
Definition median (data : list F) : result F :=
  let data := sorted data in
  let n := List.length data in
  if (n =? 0)%nat then raise StatisticsError
  else if (n mod 2 =? 1)%nat then ret (nth (n / 2) data (of_Z 0))
  else
    let i := (n / 2)%nat in
    truediv_int (fadd (nth (i - 1) data (of_Z 0)) (nth i data (of_Z 0))) 2.

(** [collections.Counter(l)]: keys in order of first occurrence. *)
Fixpoint counter_add {K} (eqb : K -> K -> bool) (k : K)
         (cnt : list (K * Z)) : list (K * Z) :=
  match cnt with
  | [] => [(k, 1)]
  | (k', v) :: rest =>
      if eqb k k' then (k', v + 1) :: rest
      else (k', v) :: counter_add eqb k rest
  end.

Definition Counter {K} (eqb : K -> K -> bool) (l : list K)
  : list (K * Z) :=
  fold_left (fun cnt k => counter_add eqb k cnt) l [].

Definition values {K} (cnt : list (K * Z)) : list Z := map snd cnt.

(** [s.startswith(p)] and [s.endswith(p)]. *)
Definition startswith (s p : string) : bool := String.prefix p s.

Definition endswith (s p : string) : bool :=
  let ls := String.length s in
  let lp := String.length p in
  (lp <=? ls)%nat && String.eqb (String.substring (ls - lp) lp s) p.

(** [enumerate(l)]. *)
Definition enumerate {A} (l : list A) : list (nat * A) :=
  combine (seq 0 (List.length l)) l.

(** [l[i] += x]; every caller checks [i < len(l)] first, so the
    [IndexError] of an index out of range is not modelled. *)
Fixpoint add_at (l : list F) (i : nat) (x : F) : list F :=
  match l, i with
  | [], _ => []
  | y :: l', O => fadd y x :: l'
  | y :: l', S i' => y :: add_at l' i' x
  end.
End Builtins.
End Py.

(* ================================================================== *)
(** * External collaborators                                            *)
(* ================================================================== *)

Module csv_dialect.
(** Modelled from the spec: class [Dialect] of module [csv_dialect] is
    not among the sources. It holds the delimiter, the quote character
    and the escape character; [validate] is the truth value of the
    attribute [validate] as [t_score.validate] reads it, that is,
    whether the dialect reports itself valid. *)
Record Dialect : Type := {
  delimiter : string;
  quotechar : string;
  escapechar : string;
  validate : bool
}.
End csv_dialect.
Import csv_dialect.

Module type_detection.
(** Module [type_detection] is external: [detect_type] answers with a
    type tag or [None], [trip_quotes] receives the raw field and
    whatever the scorer holds as its dialect; both answer as
    functions of their arguments. *)
Record type_detector : Type := {
  type_tag : Type;
  detect_type : string -> bool -> option type_tag;
  trip_quotes : string -> option Dialect -> string
}.
End type_detection.
Import type_detection.

(** A table sample: records of raw fields. *)
Abbreviation Table := (list (list string)) (only parsing).

Module table_def.
(** Module [table_def] is external: [table_constructor(file_path,
    threshold, encoding).fromCSV(_dialect)] yields the sample. *)
Definition table_constructor : Type :=
  string -> Z -> string -> option Dialect -> option Table.
End table_def.
Import table_def.

(* ================================================================== *)
(** * Class [t_uniformity]                                              *)
(* ================================================================== *)

Module t_uniformity.
(** An argument of a call: supplied or left out. *)
Inductive arg (A : Type) : Type :=
| Passed (a : A)
| Omitted.
Arguments Omitted {A}.

Section Class.
Context {F : Type} `{Float F}.

(** The instance attributes. *)
Record self : Type := {
  table : option Table;
  dialect : option Dialect;
  lambda_sum : F
}.

Definition set_lambda_sum (s : self) (v : F) : self :=
  {| table := table s; dialect := dialect s; lambda_sum := v |}.

(** [__init__(self, table, dialect, lambda_sum)]: no parameter has a
    default, so a call that leaves one out raises [TypeError]; the
    value bound to [lambda_sum] is not used. *)
Definition __init__ (table : arg (option Table))
           (dialect : arg (option Dialect)) (lambda_sum : arg F)
  : result self :=
  match table, dialect, lambda_sum with
  | Passed t, Passed d, Passed _ =>
      ret {| table := t; dialect := d; lambda_sum := of_Z 0 |}
  | _, _, _ => raise TypeError
  end.

Definition validate : M self unit :=
  (s <~ get ;;
   match table s with
   | None => mraise ValueError
   | Some _ =>
       match dialect s with
       | None => mraise ValueError
       | Some _ => mret tt
       end
   end)%method.

(** [self.table] where the code iterates over it or takes its length:
    [None] raises [TypeError]. *)
Definition the_table : M self Table :=
  (s <~ get ;;
   match table s with
   | None => mraise TypeError
   | Some t => mret t
   end)%method.

(** The body of [avg_fields], on the table held by the instance. *)
Definition avg_fields_of (t : Table) : result F :=
  let nk := fold_left (fun nk record => nk + Py.len record) t 0 in
  match t with
  | [] => ret (of_Z 0)
  | _ :: _ => Py.int_truediv nk (Py.len t)
  end.

Definition avg_fields : M self F :=
  (t <~ the_table ;; lift (avg_fields_of t))%method.

(** The body of the inner loop of [compute_type_scores], for the
    field at [col_idx]; the accumulators are [total_field_scores] and
    [column_scores]. *)
Definition score_field (td : type_detector) (num_cols : Z)
           (acc : F * list F) (cell : nat * string) : M self (F * list F) :=
  let '(total_field_scores, column_scores) := acc in
  let '(col_idx, field) := cell in
  if Z.of_nat col_idx <? num_cols then
    (s <~ get ;;
     emit (ev_trip_quotes field) ;;;
     let cleaned_field := trip_quotes td field (dialect s) in
     match dialect s with
     | None => mraise AttributeError
     | Some d =>
         let is_quoted :=
           Py.startswith field (quotechar d)
           && Py.endswith field (quotechar d) in
         emit (ev_detect_type cleaned_field is_quoted) ;;;
         let field_type := detect_type td cleaned_field is_quoted in
         let score :=
           match field_type with
           | Some _ => of_Z 100
           | None => lit 1 10
           end in
         mret (fadd total_field_scores score,
               Py.add_at column_scores col_idx score)
     end)%method
  else mret acc.

Definition score_row (td : type_detector) (num_cols : Z)
           (acc : F * list F) (row : list string) : M self (F * list F) :=
  mfoldM (score_field td num_cols) (Py.enumerate row) acc.

Definition compute_type_scores (td : type_detector) : M self (list F) :=
  (s <~ get ;;
   match table s with
   | None | Some [] => mret []
   | Some t =>
       num_cols <~ lift (Py.max_int (map Py.len t)) ;;
       let num_rows := Py.len t in
       let column_scores := repeat (of_Z 0) (Z.to_nat num_cols) in
       let total_field_scores := of_Z 0 in
       emit ev_type_detector ;;;
       acc <~ mfoldM (score_row td num_cols) t
                     (total_field_scores, column_scores) ;;
       let '(total_field_scores, column_scores) := acc in
       column_averages <~
         lift (mapM (fun score =>
                       if num_rows >? 0 then Py.truediv_int score num_rows
                       else ret (of_Z 0))
                    column_scores) ;;
       new_lambda_sum <~
         lift (if num_cols >? 0
               then Py.truediv_int total_field_scores num_cols
               else ret (of_Z 0)) ;;
       s' <~ get ;;
       put (set_lambda_sum s' new_lambda_sum) ;;;
       mret column_averages
   end)%method.

Definition compute_tau2 (column_scores : list F) : result F :=
  match column_scores with
  | [] => ret (of_Z 0)
  | _ :: _ =>
      (mean_score <-
         Py.truediv_int (Py.sum column_scores) (Py.len column_scores) ;;
       let variances :=
         map (fun score => fabs (fsub score mean_score)) column_scores in
       m <- Py.max variances ;;
       let max_var := if fltb (of_Z 0) m then m else of_Z 1 in
       terms <-
         mapM (fun v => q <- Py.truediv v max_var ;; ret (fsub (of_Z 1) q))
              variances ;;
       Py.truediv_int (Py.sum terms) (Py.len variances))%py
  end.

(** The loop shared by [compute_tau3] and the entropy part of
    [compute]: Shannon entropy, base 2, of the counts over [n]. *)
Definition entropy_loop `{FloatMath F} (counts : list Z) (n : Z)
  : result F :=
  foldM (fun entropy count =>
           (p <- Py.int_truediv count n ;;
            if fltb (of_Z 0) p
            then ret (fsub entropy (fmul p (math_log2 p)))
            else ret entropy)%py)
        counts (of_Z 0).

Definition tuple_eqb (a b : list Z) : bool :=
  if list_eq_dec Z.eq_dec a b then true else false.

(** The body of [compute_tau3], on the table held by the instance. *)
Definition tau_3_of `{FloatMath F} (t : Table) : result F :=
  let row_structures :=
    map (fun row => map (fun cell => Z.of_nat (String.length cell)) row) t in
  let n := Py.len row_structures in
  if n =? 0 then ret (of_Z 0)
  else
    let freq := Py.Counter tuple_eqb row_structures in
    entropy_loop (Py.values freq) n.

Definition compute_tau3 `{FloatMath F} : M self F :=
  (t <~ the_table ;; lift (tau_3_of t))%method.

(** The variables of the scan of [compute]. *)
Record scan_state : Type := {
  mu : F;
  c : Z;
  sm : Z;
  alpha : Z;
  k_max : Z;
  k_min : Z
}.

(** One iteration of [for i in range(n)]. *)
Definition scan_step `{FloatMath F} (n : nat) (field_lengths : list Z)
           (phi : F) (s : scan_state) (i : nat) : scan_state :=
  let k_i := nth i field_lengths 0 in
  let mu' := fadd (mu s) (math_pow (fsub (of_Z k_i) phi) 2) in
  if (i =? 0)%nat then
    let c' := c s + 1 in
    {| mu := mu'; c := c';
       sm := if (n =? 1)%nat then c' else sm s;
       alpha := alpha s; k_max := k_max s; k_min := k_min s |}
  else
    let k_max' := if k_i >? k_max s then k_i else k_max s in
    let k_min' := if k_i <? k_min s then k_i else k_min s in
    let k_prev := nth (i - 1) field_lengths 0 in
    if negb (k_prev =? k_i) then
      {| mu := mu'; c := 0;
         sm := if c s >? sm s then c s else sm s;
         alpha := alpha s + 1; k_max := k_max'; k_min := k_min' |}
    else
      let c' := c s + 1 in
      {| mu := mu'; c := c';
         sm := if (i =? n - 1)%nat
               then (if c' >? sm s then c' else sm s)
               else sm s;
         alpha := alpha s; k_max := k_max'; k_min := k_min' |}.

Definition scan `{FloatMath F} (field_lengths : list Z) (phi : F)
  : scan_state :=
  let n := List.length field_lengths in
  fold_left (scan_step n field_lengths phi) (seq 0 n)
            {| mu := of_Z 0; c := 0; sm := 0; alpha := 0;
               k_max := nth 0 field_lengths 0;
               k_min := nth 0 field_lengths 0 |}.

Definition base_tau_1 `{FloatMath F} (s : scan_state) (n : Z) : result F :=
  let r := k_max s - k_min s in
  if (alpha s >? 0) && (sm s >? 0) then
    (beta <- Py.int_truediv (sm s) n ;;
     q <- Py.truediv_int (fsub (of_Z 1) beta) (sm s) ;;
     ret (fmul (fmul (of_Z (2 * r))
                     (fadd (math_pow (of_Z (alpha s)) 2) (of_Z 1)))
               q))%py
  else ret (of_Z 0).

(** [tau_0]: consistency of the field counts measured by the MAD. *)
Definition mad (field_lengths : list Z) : result F :=
  (med <- Py.median (map of_Z field_lengths) ;;
   let devs := map (fun k => fabs (fsub (of_Z k) med)) field_lengths in
   m <- Py.median devs ;;
   ret (fmul m (lit 14826 10000)))%py.

Definition tau_0_of (n : Z) (field_lengths : list Z) : result F :=
  if n >? 1 then
    (mad <- mad field_lengths ;;
     let den := fadd (of_Z 1) (fmul (of_Z 2) mad) in
     if negb (feqb den (of_Z 0)) then Py.truediv (of_Z 1) den
     else ret (of_Z 1))%py
  else ret (of_Z 1).

(** [tau_1]: the scan, the base term and the entropy of the field
    counts. *)
Definition tau_1_of `{FloatMath F} (n : Z) (field_lengths : list Z) (phi : F)
  : result F :=
  let s := scan field_lengths phi in
  (base <- base_tau_1 s n ;;
   let freq := Py.Counter Z.eqb field_lengths in
   entropy_h <- entropy_loop (Py.values freq) n ;;
   ret (fmul base (fadd (of_Z 1) entropy_h)))%py.

Definition compute `{FloatMath F} (td : type_detector) : M self (list F) :=
  (validate ;;;
   t <~ the_table ;;
   let n := Py.len t in
   if n =? 0 then mret [of_Z 0; of_Z 0; of_Z 0; of_Z 0; of_Z 0]
   else
     let field_lengths := map Py.len t in
     tau_0 <~ lift (tau_0_of n field_lengths) ;;
     phi <~ avg_fields ;;
     tau_1 <~ lift (tau_1_of n field_lengths phi) ;;
     column_scores <~ compute_type_scores td ;;
     tau_2 <~ lift (compute_tau2 column_scores) ;;
     tau_3 <~ compute_tau3 ;;
     o <~ get ;;
     let lambda_sum := lambda_sum o in
     mret [tau_0; tau_1; tau_2; tau_3; lambda_sum])%method.

Definition overall_score `{FloatMath F} (td : type_detector) (delta : F)
  : M self F :=
  (metrics <~ compute td ;;
   match metrics with
   | [tau_0; tau_1; tau_2; tau_3; lambda_sum] =>
       t <~ the_table ;;
       let n := Py.len t in
       if feqb (fadd tau_1 (of_Z n)) (of_Z 0)
          || feqb (fadd tau_3 (of_Z 1)) (of_Z 0)
       then mret (of_Z 0)
       else
         lift (a <- Py.truediv tau_0 delta ;;
               b <- Py.truediv (of_Z 1) (fadd tau_1 (of_Z n)) ;;
               c <- Py.truediv_int tau_2 n ;;
               d <- Py.truediv (of_Z 1)
                      (fmul (fadd (of_Z 1) tau_3) (of_Z n)) ;;
               ret (fadd (fadd (fadd a b) c) (fmul d lambda_sum)))%py
   | _ => mraise ValueError
   end)%method.
End Class.
End t_uniformity.

(* ================================================================== *)
(** * Class [t_score]                                                   *)
(* ================================================================== *)

Module t_score.
Section Class.
Context {F : Type} `{Float F} `{FloatMath F}.

Record self : Type := {
  csv_path : option string;
  dialect : option Dialect;
  threshold : Z;
  encoding : string
}.

Definition validate : M self unit :=
  (s <~ get ;;
   match csv_path s with
   | None => mraise ValueError
   | Some p =>
       if (String.length p =? 0)%nat then mraise ValueError
       else
         match dialect s with
         | None => mraise ValueError
         | Some d =>
             if negb (csv_dialect.validate d) then mraise ValueError
             else mret tt
         end
   end)%method.

(** A method call on a local object: the trace is shared, the local
    object is dropped afterwards. *)
Definition call_on {T A} (obj : T) (m : M T A) : M self A :=
  fun s tr => let '(r, _, tr') := m obj tr in (r, s, tr').

Definition compute (parser : table_constructor) (td : type_detector)
  : M self F :=
  (validate ;;;
   s <~ get ;;
   match csv_path s with
   | None => mraise TypeError
   | Some p =>
       emit (ev_fromCSV p (threshold s) (encoding s)) ;;;
       let sample := parser p (threshold s) (encoding s) (dialect s) in
       uniformity <~
         lift (t_uniformity.__init__
                 (t_uniformity.Passed sample)
                 (t_uniformity.Passed (dialect s))
                 t_uniformity.Omitted) ;;
       call_on uniformity
               (t_uniformity.overall_score td (of_Z (threshold s)))
   end)%method.
End Class.
End t_score.

(* ================================================================== *)
(** * The two arithmetics                                               *)
(* ================================================================== *)

(** Exact arithmetic: floats read as real numbers, without rounding. *)
Module RealFloat.
Definition Reqb (x y : R) : bool := if Req_dec_T x y then true else false.
Definition Rltb (x y : R) : bool := if Rlt_dec x y then true else false.

#[export] Instance R_Float : Float R := {|
  of_Z := IZR;
  lit n d := (IZR n / IZR (Zpos d))%R;
  fadd := Rplus;
  fsub := Rminus;
  fmul := Rmult;
  fdiv := Rdiv;
  fabs := Rabs;
  feqb := Reqb;
  fltb := Rltb
|}.

#[export] Instance R_FloatMath : FloatMath R := {|
  math_log2 x := (ln x / ln 2)%R;
  math_pow x k := powerRZ x k
|}.
End RealFloat.

(** IEEE-754 binary64, round to nearest even: CPython's [float]. A
    literal [n/d] is the correctly rounded quotient of two integers that
    are themselves exact. *)
Module Binary64.
Definition prec : Z := 53.
Definition emax : Z := 1024.

Definition b64_of_Z (z : Z) : spec_float :=
  binary_normalize prec emax z 0 false.

#[export] Instance B64_Float : Float spec_float := {|
  of_Z := b64_of_Z;
  lit n d := SFdiv prec emax (b64_of_Z n) (b64_of_Z (Zpos d));
  fadd := SFadd prec emax;
  fsub := SFsub prec emax;
  fmul := SFmul prec emax;
  fdiv := SFdiv prec emax;
  fabs := SFabs;
  feqb := SFeqb;
  fltb := SFltb
|}.
End Binary64.


(** [cls(...).method(...)]: construction followed by one call; the
    value and the trace are observed. *)
Definition on_new {S A} (r : result S) (m : M S A) (tr : list event)
  : result A * list event :=
  match r with
  | inl e => (inl e, tr)
  | inr o => let '(x, _, tr') := m o tr in (x, tr')
  end.

(* ================================================================== *)
(** * Notions of the specification                                      *)
(* ================================================================== *)

(** A run is a maximal block of consecutive records with the same field
    count; [runs] lists the lengths of the runs, in order. *)
Fixpoint runs (l : list Z) : list Z :=
  match l with
  | [] => []
  | x :: l' =>
      let rest := runs l' in
      match l' with
      | [] => [1]
      | y :: _ =>
          match rest with
          | [] => [1]
          | r :: rs => if x =? y then (r + 1) :: rs else 1 :: r :: rs
          end
      end
  end.

Definition longest_run (l : list Z) : Z := fold_right Z.max 0 (runs l).

(** The type-scoring step with an explicit paired result, as the
    specification asks for it: the per-column averages together with
    [lambda_sum], computed from the table, the dialect and the answers
    of the detector, without any instance field. *)
Section TypeScoringStep.
Context {F : Type} `{Float F}.
Variable td : type_detector.
Variable d : Dialect.

Definition is_quoted (field : string) : bool :=
  Py.startswith field (quotechar d) && Py.endswith field (quotechar d).

Definition field_score (field : string) : F :=
  match detect_type td (trip_quotes td field (Some d)) (is_quoted field) with
  | Some _ => of_Z 100
  | None => lit 1 10
  end.

Definition add_field (num_cols : Z) (acc : F * list F)
           (cell : nat * string) : F * list F :=
  if Z.of_nat (fst cell) <? num_cols then
    (fadd (fst acc) (field_score (snd cell)),
     Py.add_at (snd acc) (fst cell) (field_score (snd cell)))
  else acc.

Definition add_row (num_cols : Z) (acc : F * list F) (row : list string)
  : F * list F :=
  fold_left (add_field num_cols) (Py.enumerate row) acc.

Definition type_scoring_step (t : Table) : result (list F * F) :=
  match t with
  | [] => ret ([], of_Z 0)
  | _ :: _ =>
      (num_cols <- Py.max_int (map Py.len t) ;;
       let num_rows := Py.len t in
       let acc := fold_left (add_row num_cols) t
                    (of_Z 0, repeat (of_Z 0) (Z.to_nat num_cols)) in
       column_averages <-
         mapM (fun score =>
                 if num_rows >? 0 then Py.truediv_int score num_rows
                 else ret (of_Z 0))
              (snd acc) ;;
       lambda_sum <-
         (if num_cols >? 0 then Py.truediv_int (fst acc) num_cols
          else ret (of_Z 0)) ;;
       ret (column_averages, lambda_sum))%py
  end.

(** The external calls made for a field, a row, a table. *)
Definition field_events (num_cols : Z) (cell : nat * string)
  : list event :=
  if Z.of_nat (fst cell) <? num_cols then
    [ev_trip_quotes (snd cell);
     ev_detect_type (trip_quotes td (snd cell) (Some d))
                    (is_quoted (snd cell))]
  else [].

Definition row_events (num_cols : Z) (row : list string) : list event :=
  flat_map (field_events num_cols) (Py.enumerate row).

Definition table_events (t : Table) : list event :=
  match Py.max_int (map Py.len t) with
  | inr num_cols => ev_type_detector :: flat_map (row_events num_cols) t
  | inl _ => []
  end.
End TypeScoringStep.

(** ** Exact arithmetic *)

Section ExactNotions.
Import RealFloat.
Local Open Scope R_scope.

(** The value of [compute_tau2] in exact arithmetic: the mean of
    [1 - deviation / largest deviation] over the columns. *)
Definition tau2_R (column_scores : list R) : R :=
  let mean_score := Py.sum column_scores / IZR (Py.len column_scores) in
  let variances := map (fun score => Rabs (score - mean_score)) column_scores in
  let m := fold_left (fun m y => if Rltb m y then y else m)
                     (tl variances) (hd 0 variances) in
  let max_var := if Rltb 0 m then m else 1 in
  Py.sum (map (fun v => 1 - v / max_var) variances) / IZR (Py.len variances).

(** The composite score of the specification. *)
Definition omega' (tau_0 tau_1 tau_2 tau_3 lambda_sum : R) (n : Z) (delta : R)
  : R :=
  tau_0 / delta + 1 / (tau_1 + IZR n) + tau_2 / IZR n
  + lambda_sum / ((1 + tau_3) * IZR n).

(** What the scan maintains: after [i] records the counters are
    between 0 and [i] and the tracked minimum is below the maximum. *)
Definition scan_inv (i : nat) (s : t_uniformity.scan_state (F := R)) : Prop :=
  (t_uniformity.k_min s <= t_uniformity.k_max s
   /\ 0 <= t_uniformity.c s <= Z.of_nat i
   /\ 0 <= t_uniformity.sm s <= Z.of_nat i
   /\ 0 <= t_uniformity.alpha s)%Z.
End ExactNotions.

(** ** The scan as a walk along the field counts

    From the second record on, an iteration of the scan only looks at
    the previous count, the current one and whether the record is the
    last; [walk] is the loop read that way. *)
Section ScanWalk.
Context {F : Type} `{Float F} `{FloatMath F}.

Definition walk_step (last : bool) (k_prev k_i : Z) (phi : F)
           (s : t_uniformity.scan_state) : t_uniformity.scan_state :=
  let mu' := fadd (t_uniformity.mu s) (math_pow (fsub (of_Z k_i) phi) 2) in
  let k_max' :=
    if k_i >? t_uniformity.k_max s then k_i else t_uniformity.k_max s in
  let k_min' :=
    if k_i <? t_uniformity.k_min s then k_i else t_uniformity.k_min s in
  if negb (k_prev =? k_i) then
    {| t_uniformity.mu := mu'; t_uniformity.c := 0;
       t_uniformity.sm :=
         if t_uniformity.c s >? t_uniformity.sm s
         then t_uniformity.c s else t_uniformity.sm s;
       t_uniformity.alpha := t_uniformity.alpha s + 1;
       t_uniformity.k_max := k_max'; t_uniformity.k_min := k_min' |}
  else
    let c' := t_uniformity.c s + 1 in
    {| t_uniformity.mu := mu'; t_uniformity.c := c';
       t_uniformity.sm :=
         if last
         then (if c' >? t_uniformity.sm s then c' else t_uniformity.sm s)
         else t_uniformity.sm s;
       t_uniformity.alpha := t_uniformity.alpha s;
       t_uniformity.k_max := k_max'; t_uniformity.k_min := k_min' |}.

Fixpoint walk (k_prev : Z) (rest : list Z) (phi : F)
         (s : t_uniformity.scan_state) : t_uniformity.scan_state :=
  match rest with
  | [] => s
  | k_i :: rest' =>
      walk k_i rest' phi
           (walk_step (match rest' with [] => true | _ => false end)
                      k_prev k_i phi s)
  end.
End ScanWalk.

(** What the scan leaves in [sm], in terms of the run lengths: the
    first run counts in full, every later run one record short. *)
Definition sm_of_runs (rs : list Z) : Z :=
  match rs with
  | [] => 0
  | r :: rest => fold_right Z.max r (map Z.pred rest)
  end.


(** The two calls [compute_type_scores] makes for a field. *)
Definition field_calls (td : type_detector) (d : Dialect) (field : string)
  : list event :=
  [ev_trip_quotes field;
   ev_detect_type (trip_quotes td field (Some d)) (is_quoted d field)].

(** ** Sample inputs *)

Definition double_quote : string := String (ascii_of_nat 34) EmptyString.

Definition comma_dialect : Dialect :=
  {| delimiter := ","; quotechar := double_quote; escapechar := EmptyString;
     validate := true |}.

(** A dialect that reports itself invalid. *)
Definition invalid_dialect : Dialect :=
  {| delimiter := EmptyString; quotechar := EmptyString;
     escapechar := EmptyString; validate := false |}.

(** A detector that recognises nothing, and one that recognises
    everything. *)
Definition detect_nothing : type_detector :=
  {| type_tag := unit;
     detect_type := fun _ _ => None;
     trip_quotes := fun field _ => field |}.

Definition detect_everything : type_detector :=
  {| type_tag := unit;
     detect_type := fun _ _ => Some tt;
     trip_quotes := fun field _ => field |}.

(** The sample [[["a"]; ["a";"b"]; ["a";"b"]]]: field counts 1, 2, 2. *)
Definition short_first_run : Table :=
  [["a"]; ["a"; "b"]; ["a"; "b"]]%string.

(** One record of three fields. *)
Definition one_record : Table := [["x"; "y"; "z"]]%string.

(** Three records of two fields with the same cell lengths. *)
Definition uniform_sample : list (list string) :=
  [["a"; "bb"]; ["c"; "dd"]; ["e"; "ff"]]%string.

(* ================================================================== *)
(** * Properties                                                        *)
(* ================================================================== *)

Unset Implicit Arguments.
Import RealFloat Binary64.

Import t_uniformity.

Section Generic.
Context {F : Type} `{Float F} `{FloatMath F}.
Variable td : type_detector.

(** ** The constructor *)

(** C10: the constructor drops its [lambda_sum] argument: the field is
    always set to 0, so two scorers built from the same table and
    dialect are the same object, and [compute] and [overall_score]
    give the same value and make the same external calls on both. *)
Theorem init_ignores_lambda_sum :
  forall (t : option Table) (d : option Dialect) (v1 v2 delta : F)
         (tr : list event),
    __init__ (Passed t) (Passed d) (Passed v1)
    = ret {| table := t; dialect := d; lambda_sum := of_Z 0 |}
    /\ __init__ (Passed t) (Passed d) (Passed v1)
       = __init__ (Passed t) (Passed d) (Passed v2)
    /\ on_new (__init__ (Passed t) (Passed d) (Passed v1)) (compute td) tr
       = on_new (__init__ (Passed t) (Passed d) (Passed v2)) (compute td) tr
    /\ on_new (__init__ (Passed t) (Passed d) (Passed v1))
              (overall_score td delta) tr
       = on_new (__init__ (Passed t) (Passed d) (Passed v2))
                (overall_score td delta) tr.
Proof.
  intros; repeat split; reflexivity.
Qed.

(** ** The empty sample *)

(** C2: on a table without records, and for every dialect, [compute]
    returns five zeros, leaves the instance as it was and adds nothing
    to the trace: neither the type detector nor the quote stripper is
    called. *)
Theorem compute_empty_table :
  forall (d : Dialect) (v : F) (tr : list event),
    compute td {| table := Some []; dialect := Some d; lambda_sum := v |} tr
    = (inr [of_Z 0; of_Z 0; of_Z 0; of_Z 0; of_Z 0],
       {| table := Some []; dialect := Some d; lambda_sum := v |},
       tr).
Proof.
  intros; reflexivity.
Qed.

(** ** The orchestrator *)

(** C3: whenever the path is not empty and the dialect is valid,
    [t_score.compute] calls the parser and then stops with
    [TypeError]: the scorer is built without the [lambda_sum] argument
    that [__init__] requires, so no score is ever returned. *)
Theorem t_score_compute_raises_TypeError :
  forall (parser : table_constructor) (a : ascii) (p : string)
         (d0 q e : string) (thr : Z) (enc : string) (tr : list event),
    let d := {| delimiter := d0; quotechar := q; escapechar := e;
                csv_dialect.validate := true |} in
    let s := {| t_score.csv_path := Some (String a p);
                t_score.dialect := Some d;
                t_score.threshold := thr;
                t_score.encoding := enc |} in
    t_score.compute parser td s tr
    = (inl TypeError, s, tr ++ [ev_fromCSV (String a p) thr enc]).
Proof.
  intros; reflexivity.
Qed.
End Generic.

(** ** The run scan of [tau_1] *)

Section Scan.
Context {F : Type} `{Float F} `{FloatMath F}.

(** C6: on field counts 1, 2, 2 the longest run has two records, but
    the scan ends with [sm = 1]: the run counter restarts from 0 after
    a change of field count, so every run but the first is counted one
    short.  With [alpha = 1] and [sm = 1] both positive, the base term
    is computed from that [sm], with [beta = sm / n]. *)
Theorem scan_sm_misses_longest_run :
  forall phi : F,
    let fl := map Py.len short_first_run in
    let s := scan fl phi in
    fl = [1; 2; 2]
    /\ longest_run fl = 2
    /\ sm s = 1
    /\ alpha s = 1
    /\ base_tau_1 s 3
       = ret (fmul (fmul (of_Z (2 * (k_max s - k_min s)))
                         (fadd (math_pow (of_Z (alpha s)) 2) (of_Z 1)))
                   (fdiv (fsub (of_Z 1) (fdiv (of_Z (sm s)) (of_Z 3)))
                         (of_Z (sm s)))).
Proof.
  intros phi; repeat split; reflexivity.
Qed.
End Scan.

(** ** The type-scoring step *)

Section TypeScores.
Context {F : Type} `{Float F}.
Variable td : type_detector.
Variable d : Dialect.

Lemma score_field_run :
  forall num_cols acc cell t v tr,
    score_field td num_cols acc cell
      {| table := t; dialect := Some d; lambda_sum := v |} tr
    = (inr (add_field td d num_cols acc cell),
       {| table := t; dialect := Some d; lambda_sum := v |},
       tr ++ field_events td d num_cols cell).
Proof.
  intros num_cols [total cs] [i field] t v tr.
  unfold score_field, add_field, field_events; cbn.
  destruct (Z.of_nat i <? num_cols); cbn.
  - unfold field_score, is_quoted.
    destruct (detect_type td _ _); rewrite <- app_assoc; reflexivity.
  - rewrite app_nil_r; reflexivity.
Qed.

Lemma score_row_run :
  forall num_cols row acc t v tr,
    score_row td num_cols acc row
      {| table := t; dialect := Some d; lambda_sum := v |} tr
    = (inr (add_row td d num_cols acc row),
       {| table := t; dialect := Some d; lambda_sum := v |},
       tr ++ row_events td d num_cols row).
Proof.
  intros num_cols row acc t v tr.
  unfold score_row, add_row, row_events.
  generalize (Py.enumerate row) as cells.
  intros cells; revert acc tr.
  induction cells as [|cell cells IH]; intros acc tr; cbn.
  - rewrite app_nil_r; reflexivity.
  - unfold mbind at 1. rewrite score_field_run.
    rewrite IH, <- app_assoc; reflexivity.
Qed.

Lemma score_rows_run :
  forall num_cols rows acc t v tr,
    mfoldM (score_row td num_cols) rows acc
      {| table := t; dialect := Some d; lambda_sum := v |} tr
    = (inr (fold_left (add_row td d num_cols) rows acc),
       {| table := t; dialect := Some d; lambda_sum := v |},
       tr ++ flat_map (row_events td d num_cols) rows).
Proof.
  intros num_cols rows; induction rows as [|row rows IH];
    intros acc t v tr; cbn.
  - rewrite app_nil_r; reflexivity.
  - unfold mbind at 1. rewrite score_row_run.
    rewrite IH, <- app_assoc; reflexivity.
Qed.

Lemma mapM_averages :
  forall (num_rows : Z) (l : list F),
    (num_rows >? 0) = true ->
    mapM (fun score =>
            if num_rows >? 0 then Py.truediv_int score num_rows
            else ret (of_Z 0)) l
    = ret (map (fun score => fdiv score (of_Z num_rows)) l).
Proof.
  intros num_rows l Hpos; induction l as [|x l IH]; cbn.
  - reflexivity.
  - rewrite IH, Hpos. unfold Py.truediv_int.
    replace (num_rows =? 0) with false
      by (symmetry; rewrite Z.gtb_ltb in Hpos; apply Z.ltb_lt in Hpos;
          apply Z.eqb_neq; lia).
    reflexivity.
Qed.

Lemma len_cons_pos : forall A (x : A) (l : list A), (Py.len (x :: l) >? 0) = true.
Proof.
  intros; unfold Py.len; cbn [List.length].
  rewrite Z.gtb_ltb; apply Z.ltb_lt; lia.
Qed.

Lemma lambda_sum_total :
  forall (total : F) (num_cols : Z),
    (if num_cols >? 0 then Py.truediv_int total num_cols else ret (of_Z 0))
    = ret (if num_cols >? 0 then fdiv total (of_Z num_cols) else of_Z 0).
Proof.
  intros total num_cols; destruct (num_cols >? 0) eqn:E; [|reflexivity].
  unfold Py.truediv_int.
  replace (num_cols =? 0) with false
    by (symmetry; rewrite Z.gtb_ltb in E; apply Z.ltb_lt in E;
        apply Z.eqb_neq; lia).
  reflexivity.
Qed.

(** On a table with at least one record the method returns the first
    component of the paired step, stores the second in the field
    [lambda_sum], and calls the collaborators once per field. *)
Lemma compute_type_scores_run :
  forall row rows v tr,
    exists column_averages new_lambda_sum,
      type_scoring_step td d (row :: rows)
      = ret (column_averages, new_lambda_sum)
      /\ compute_type_scores td
           {| table := Some (row :: rows); dialect := Some d;
              lambda_sum := v |} tr
         = (inr column_averages,
            {| table := Some (row :: rows); dialect := Some d;
               lambda_sum := new_lambda_sum |},
            tr ++ table_events td d (row :: rows)).
Proof.
  intros row rows v tr.
  unfold type_scoring_step, compute_type_scores, table_events.
  cbn [get mbind table Py.max_int map lift bind ret].
  set (num_cols := fold_left (fun m y : Z => if m <? y then y else m)
                             (map Py.len rows) (Py.len row)).
  set (t := row :: rows).
  unfold emit; cbn [mbind].
  unfold mbind at 1; rewrite score_rows_run.
  destruct (fold_left (add_row td d num_cols) t _) as [total cs] eqn:Eacc.
  cbn [fst snd].
  rewrite mapM_averages by apply len_cons_pos.
  rewrite lambda_sum_total.
  cbn [mbind lift ret bind get put set_lambda_sum table dialect].
  do 2 eexists; split; [reflexivity|].
  rewrite <- app_assoc; reflexivity.
Qed.
End TypeScores.

(** ** The shape of [compute] *)

Section ComputeShape.
Context {F : Type} `{Float F} `{FloatMath F}.
Variable td : type_detector.
Variable d : Dialect.

(** [compute] on a table with at least one record: the structural
    metrics are computed first and leave the instance alone; the type
    scores then update the field [lambda_sum], which is what [compute]
    returns as fifth component. *)
Lemma compute_run :
  forall row rows v tr,
    let t := row :: rows in
    let n := Py.len t in
    let fl := map Py.len t in
    exists column_averages new_lambda_sum,
      type_scoring_step td d t = ret (column_averages, new_lambda_sum)
      /\ compute td {| table := Some t; dialect := Some d; lambda_sum := v |} tr
         = match (tau_0 <- tau_0_of n fl ;;
                  phi <- avg_fields_of t ;;
                  tau_1 <- tau_1_of n fl phi ;;
                  ret (tau_0, tau_1))%py with
           | inl e =>
               (inl e,
                {| table := Some t; dialect := Some d; lambda_sum := v |},
                tr)
           | inr (tau_0, tau_1) =>
               match (tau_2 <- compute_tau2 column_averages ;;
                      tau_3 <- tau_3_of t ;;
                      ret (tau_2, tau_3))%py with
               | inl e =>
                   (inl e,
                    {| table := Some t; dialect := Some d;
                       lambda_sum := new_lambda_sum |},
                    tr ++ table_events td d t)
               | inr (tau_2, tau_3) =>
                   (inr [tau_0; tau_1; tau_2; tau_3; new_lambda_sum],
                    {| table := Some t; dialect := Some d;
                       lambda_sum := new_lambda_sum |},
                    tr ++ table_events td d t)
               end
           end.
Proof.
  intros row rows v tr t n fl.
  destruct (compute_type_scores_run td d row rows v tr)
    as (avgs & ls & Hstep & Hrun).
  exists avgs, ls; split; [exact Hstep|].
  unfold compute, validate, avg_fields, compute_tau3, the_table.
  unfold mbind, get, mret, lift, mraise; cbn [table dialect].
  fold t; fold n; fold fl.
  replace (n =? 0) with false
    by (symmetry; apply Z.eqb_neq; unfold n, t, Py.len; cbn [List.length]; lia).
  destruct (tau_0_of n fl) as [e|tau_0]; cbn [bind table]; [reflexivity|].
  destruct (avg_fields_of t) as [e|phi]; cbn [bind table]; [reflexivity|].
  destruct (tau_1_of n fl phi) as [e|tau_1]; cbn [bind table]; [reflexivity|].
  fold t in Hrun; rewrite Hrun.
  cbn [bind ret table lambda_sum].
  destruct (compute_tau2 avgs) as [e|tau_2]; cbn [bind table]; [reflexivity|].
  destruct (tau_3_of t) as [e|tau_3]; reflexivity.
Qed.
End ComputeShape.

(** ** The guards of the structural metrics

    Every division of the structural part sits behind a test of its own
    denominator, so in any arithmetic the part returns. *)

Section StructuralGuards.
Context {F : Type} `{Float F} `{FloatMath F}.

Lemma int_truediv_ok :
  forall a b : Z, b <> 0 -> Py.int_truediv a b = ret (fdiv (of_Z a) (of_Z b)).
Proof.
  intros a b Hb; unfold Py.int_truediv.
  apply Z.eqb_neq in Hb; rewrite Hb; reflexivity.
Qed.

Lemma truediv_int_ok :
  forall (x : F) (b : Z), b <> 0 -> Py.truediv_int x b = ret (fdiv x (of_Z b)).
Proof.
  intros x b Hb; unfold Py.truediv_int.
  apply Z.eqb_neq in Hb; rewrite Hb; reflexivity.
Qed.

Lemma insert_length :
  forall (x : F) (l : list F), List.length (Py.insert x l) = S (List.length l).
Proof.
  intros x l; induction l as [|y l IH]; cbn.
  - reflexivity.
  - destruct (fltb x y); cbn; [reflexivity|now rewrite IH].
Qed.

Lemma sorted_length :
  forall l : list F, List.length (Py.sorted l) = List.length l.
Proof.
  intros l; unfold Py.sorted.
  assert (G : forall acc : list F,
             List.length (fold_left (fun acc x => Py.insert x acc) l acc)
             = (List.length l + List.length acc)%nat).
  { induction l as [|x l IH]; intros acc; cbn; [reflexivity|].
    rewrite IH, insert_length; lia. }
  rewrite G; cbn; lia.
Qed.

Lemma median_ok :
  forall l : list F, l <> [] -> exists m, Py.median l = ret m.
Proof.
  intros l Hl; unfold Py.median.
  rewrite sorted_length.
  destruct l as [|x l]; [contradiction|].
  cbn [List.length Nat.eqb].
  destruct (_ mod 2 =? 1)%nat.
  - eexists; reflexivity.
  - rewrite truediv_int_ok by discriminate; eexists; reflexivity.
Qed.

Lemma mad_ok :
  forall fl : list Z, fl <> [] -> exists m, mad fl = ret m.
Proof.
  intros fl Hfl; unfold mad.
  destruct (median_ok (map of_Z fl)) as [med ->].
  { destruct fl; [contradiction|discriminate]. }
  cbn [bind ret]; cbv zeta.
  destruct (median_ok (map (fun k => fabs (fsub (of_Z k) med)) fl))
    as [m ->].
  { destruct fl; [contradiction|discriminate]. }
  eexists; reflexivity.
Qed.

Lemma tau_0_of_ok :
  forall (n : Z) (fl : list Z), fl <> [] -> exists x, tau_0_of n fl = ret x.
Proof.
  intros n fl Hfl; unfold tau_0_of.
  destruct (n >? 1); [|eexists; reflexivity].
  destruct (mad_ok fl Hfl) as [m ->]; cbn [bind ret].
  unfold Py.truediv.
  destruct (feqb _ _); eexists; reflexivity.
Qed.

Lemma avg_fields_of_ok :
  forall (row : list string) (rows : Table),
  exists phi, avg_fields_of (row :: rows) = ret phi.
Proof.
  intros row rows; unfold avg_fields_of.
  rewrite int_truediv_ok; [eexists; reflexivity|].
  unfold Py.len; cbn [List.length]; lia.
Qed.

Lemma base_tau_1_ok :
  forall (s : scan_state) (n : Z), n <> 0 -> exists b, base_tau_1 s n = ret b.
Proof.
  intros s n Hn; unfold base_tau_1.
  destruct (alpha s >? 0); cbn [andb]; [|eexists; reflexivity].
  destruct (sm s >? 0) eqn:Esm; [|eexists; reflexivity].
  rewrite int_truediv_ok by exact Hn; cbn [bind ret].
  rewrite truediv_int_ok; [eexists; reflexivity|].
  rewrite Z.gtb_ltb in Esm; apply Z.ltb_lt in Esm; lia.
Qed.

Lemma entropy_loop_ok :
  forall (counts : list Z) (n : Z),
    n <> 0 -> exists h, entropy_loop counts n = ret h.
Proof.
  intros counts n Hn; unfold entropy_loop.
  set (body := fun (entropy : F) (count : Z) => bind _ _).
  assert (G : forall acc, exists h, foldM body counts acc = ret h).
  { induction counts as [|k counts IH]; intros acc; cbn [foldM].
    - eexists; reflexivity.
    - unfold body at 1.
      rewrite int_truediv_ok by exact Hn; cbn [bind ret].
      destruct (fltb _ _); cbn [bind ret]; apply IH. }
  apply G.
Qed.

Lemma tau_1_of_ok :
  forall (n : Z) (fl : list Z) (phi : F),
    n <> 0 -> exists x, tau_1_of n fl phi = ret x.
Proof.
  intros n fl phi Hn; unfold tau_1_of.
  destruct (base_tau_1_ok (scan fl phi) n Hn) as [b ->]; cbn [bind ret].
  destruct (entropy_loop_ok (Py.values (Py.Counter Z.eqb fl)) n Hn) as [h ->].
  eexists; reflexivity.
Qed.

Lemma tau_3_of_ok : forall t : Table, exists x, tau_3_of t = ret x.
Proof.
  intros t; unfold tau_3_of.
  destruct (_ =? 0) eqn:E; [eexists; reflexivity|].
  apply entropy_loop_ok; apply Z.eqb_neq; exact E.
Qed.

Lemma len_cons_neq_0 :
  forall A (x : A) (l : list A), Py.len (x :: l) <> 0.
Proof.
  intros; unfold Py.len; cbn [List.length]; lia.
Qed.

Lemma compute_nil :
  forall td (d : Dialect) (v : F) (tr : list event),
    compute td {| table := Some []; dialect := Some d; lambda_sum := v |} tr
    = (inr [of_Z 0; of_Z 0; of_Z 0; of_Z 0; of_Z 0],
       {| table := Some []; dialect := Some d; lambda_sum := v |}, tr).
Proof.
  intros; reflexivity.
Qed.

Lemma structural_part_ok :
  forall (row : list string) (rows : Table),
    let t := row :: rows in
    exists tau_0 tau_1,
      (tau_0 <- tau_0_of (Py.len t) (map Py.len t) ;;
       phi <- avg_fields_of t ;;
       tau_1 <- tau_1_of (Py.len t) (map Py.len t) phi ;;
       ret (tau_0, tau_1))%py
      = ret (tau_0, tau_1).
Proof.
  intros row rows t.
  destruct (tau_0_of_ok (Py.len t) (map Py.len t)) as [tau_0 ->];
    [discriminate|].
  destruct (avg_fields_of_ok row rows) as [phi Hphi]; fold t in Hphi.
  cbn [bind ret]; rewrite Hphi; cbn [bind ret].
  destruct (tau_1_of_ok (Py.len t) (map Py.len t) phi
              (len_cons_neq_0 _ row rows))
    as [tau_1 ->].
  do 2 eexists; reflexivity.
Qed.
End StructuralGuards.

(** ** The field [lambda_sum] *)

Section LambdaSum.
Context {F : Type} `{Float F} `{FloatMath F}.
Variable td : type_detector.
Variable d : Dialect.

(** C5, as the code has it: [compute_type_scores] returns the
    per-column averages only and stores [lambda_sum] in the instance
    field (on an empty table it returns the empty list and leaves the
    field alone); returned list and stored value are the two components
    of the paired step.  [compute] reads the field after that call, so
    its outcome does not depend on what the field held before. *)
Theorem compute_type_scores_stores_lambda_sum :
  forall (row : list string) (rows : Table) (v v' : F) (tr : list event),
    let t := row :: rows in
    (exists column_averages new_lambda_sum,
        type_scoring_step td d t = ret (column_averages, new_lambda_sum)
        /\ compute_type_scores td
             {| table := Some t; dialect := Some d; lambda_sum := v |} tr
           = (inr column_averages,
              {| table := Some t; dialect := Some d;
                 lambda_sum := new_lambda_sum |},
              tr ++ table_events td d t))
    /\ compute_type_scores td
         {| table := Some []; dialect := Some d; lambda_sum := v |} tr
       = (inr [],
          {| table := Some []; dialect := Some d; lambda_sum := v |}, tr)
    /\ compute td {| table := Some t; dialect := Some d; lambda_sum := v |} tr
       = compute td
           {| table := Some t; dialect := Some d; lambda_sum := v' |} tr.
Proof.
  intros row rows v v' tr t; subst t; repeat split.
  - apply compute_type_scores_run.
  - destruct (compute_run td d row rows v tr) as (a1 & l1 & S1 & C1).
    destruct (compute_run td d row rows v' tr) as (a2 & l2 & S2 & C2).
    rewrite S1 in S2; injection S2 as <- <-.
    rewrite C1, C2.
    destruct (structural_part_ok row rows) as (tau_0 & tau_1 & ->).
    reflexivity.
Qed.
End LambdaSum.

(** C5 as stated fails: on one record of three fields that
    the detector does not recognise, the call returns the list of
    averages alone and changes the field [lambda_sum] of the instance
    from 0 to 0.10000000000000002. *)
Lemma compute_type_scores_mutates_field :
  let o := {| table := Some one_record; dialect := Some comma_dialect;
              lambda_sum := Binary64.b64_of_Z 0 |} in
  let '(r, o', _) := compute_type_scores detect_nothing o [] in
  r = inr [lit 1 10; lit 1 10; lit 1 10]
  /\ lambda_sum o = S754_zero false
  /\ lambda_sum o' = S754_finite false 7205759403792795 (-56)
  /\ o' <> o.
Proof.
  vm_compute; repeat split; discriminate.
Qed.

(** ** Type coherence [tau_2] *)

(** C8: in binary64, three identical column scores 0.1 (one record of
    three unrecognised fields) have the computed mean
    0.10000000000000002, since 0.1 + 0.1 + 0.1 rounds up; every
    deviation is then the same positive number, the fallback 1.0 is not
    taken, and [compute_tau2] returns 0.0 where identical scores should
    give 1. *)
Theorem compute_tau2_identical_scores_binary64 :
  let scores : list spec_float := [lit 1 10; lit 1 10; lit 1 10] in
  lit 1 10 = S754_finite false 7205759403792794 (-56)
  /\ Py.truediv_int (Py.sum scores) (Py.len scores)
     = ret (S754_finite false 7205759403792795 (-56))
  /\ compute_tau2 scores = ret (S754_zero false)
  /\ feqb (S754_zero false) (of_Z 1 : spec_float) = false.
Proof.
  vm_compute; repeat split; reflexivity.
Qed.

Section ExactArithmetic.
Local Open Scope R_scope.

Lemma Reqb_true : forall x y : R, Reqb x y = true <-> x = y.
Proof.
  intros x y; unfold Reqb; destruct (Req_dec_T x y); split;
    intros; congruence.
Qed.

Lemma Reqb_false : forall x y : R, Reqb x y = false <-> x <> y.
Proof.
  intros x y; unfold Reqb; destruct (Req_dec_T x y); split;
    intros; congruence.
Qed.

Lemma Rltb_true : forall x y : R, Rltb x y = true <-> x < y.
Proof.
  intros x y; unfold Rltb; destruct (Rlt_dec x y); split;
    intros; try assumption; try reflexivity; try discriminate; contradiction.
Qed.

Lemma Rltb_false : forall x y : R, Rltb x y = false <-> y <= x.
Proof.
  intros x y; unfold Rltb; destruct (Rlt_dec x y); split; intros;
    try discriminate; try reflexivity; lra.
Qed.

Lemma truediv_R :
  forall x y : R, y <> 0 -> Py.truediv x y = ret (x / y).
Proof.
  intros x y Hy; unfold Py.truediv; cbn.
  apply Reqb_false in Hy; rewrite Hy; reflexivity.
Qed.

Lemma truediv_R_zero :
  forall x : R, Py.truediv x 0 = raise ZeroDivisionError.
Proof.
  intros x; unfold Py.truediv; cbn.
  replace (Reqb 0 0) with true by (symmetry; apply Reqb_true; reflexivity).
  reflexivity.
Qed.

Lemma fold_left_Rplus :
  forall (l : list R) (a : R), fold_left Rplus l a = a + fold_left Rplus l 0.
Proof.
  induction l as [|x l IH]; intros a; cbn.
  - lra.
  - rewrite (IH (a + x)), (IH (0 + x)); lra.
Qed.

Lemma sum_R_nil : Py.sum (@nil R) = 0.
Proof. reflexivity. Qed.

Lemma sum_R_cons : forall (x : R) (l : list R), Py.sum (x :: l) = x + Py.sum l.
Proof.
  intros x l; unfold Py.sum; cbn.
  rewrite fold_left_Rplus; lra.
Qed.

Lemma len_R_cons :
  forall A (x : A) (l : list A), IZR (Py.len (x :: l)) = 1 + IZR (Py.len l).
Proof.
  intros A x l; unfold Py.len; cbn [List.length].
  rewrite Nat2Z.inj_succ, succ_IZR; lra.
Qed.

Lemma len_map :
  forall A B (f : A -> B) (l : list A), Py.len (map f l) = Py.len l.
Proof.
  intros; unfold Py.len; rewrite length_map; reflexivity.
Qed.

Lemma len_R_nonneg : forall A (l : list A), 0 <= IZR (Py.len l).
Proof.
  intros A l; unfold Py.len; apply IZR_le; lia.
Qed.

Lemma sum_R_bounds :
  forall l : list R,
    (forall x, In x l -> 0 <= x <= 1) -> 0 <= Py.sum l <= IZR (Py.len l).
Proof.
  induction l as [|x l IH]; intros Hl.
  - rewrite sum_R_nil; unfold Py.len; cbn; lra.
  - rewrite sum_R_cons, len_R_cons.
    assert (0 <= x <= 1) by (apply Hl; left; reflexivity).
    assert (0 <= Py.sum l <= IZR (Py.len l))
      by (apply IH; intros y Hy; apply Hl; right; exact Hy).
    lra.
Qed.

Lemma sum_R_const :
  forall (c : R) (l : list R),
    (forall x, In x l -> x = c) -> Py.sum l = c * IZR (Py.len l).
Proof.
  intros c; induction l as [|x l IH]; intros Hl.
  - rewrite sum_R_nil; unfold Py.len; cbn; lra.
  - rewrite sum_R_cons, len_R_cons, IH
      by (intros y Hy; apply Hl; right; exact Hy).
    rewrite (Hl x) by (left; reflexivity); lra.
Qed.

Lemma max_R_fold :
  forall (l : list R) (m0 : R),
    let m := fold_left (fun m y => if Rltb m y then y else m) l m0 in
    m0 <= m /\ (forall y, In y l -> y <= m).
Proof.
  induction l as [|x l IH]; intros m0; cbn.
  - split; [lra|intros y []].
  - destruct (Rltb m0 x) eqn:E.
    + apply Rltb_true in E.
      destruct (IH x) as [H1 H2]; split; [lra|].
      intros y [<-|Hy]; [exact H1|apply H2, Hy].
    + apply Rltb_false in E.
      destruct (IH m0) as [H1 H2]; split; [exact H1|].
      intros y [<-|Hy]; [lra|apply H2, Hy].
Qed.

Lemma max_R_ok :
  forall (x : R) (l : list R),
  exists m, Py.max (x :: l) = ret m /\ forall y, In y (x :: l) -> y <= m.
Proof.
  intros x l; eexists; split; [reflexivity|].
  destruct (max_R_fold l x) as [H1 H2].
  intros y [<-|Hy]; [exact H1|apply H2, Hy].
Qed.

Lemma mapM_terms_R :
  forall (max_var : R) (l : list R),
    max_var <> 0 ->
    mapM (fun v => q <- Py.truediv v max_var ;; ret (fsub (of_Z 1) q))%py l
    = ret (map (fun v => 1 - v / max_var) l).
Proof.
  intros max_var l Hm; induction l as [|v l IH]; cbn [mapM map].
  - reflexivity.
  - rewrite IH, truediv_R by exact Hm; reflexivity.
Qed.

Lemma compute_tau2_R :
  forall (x : R) (l : list R), compute_tau2 (x :: l) = ret (tau2_R (x :: l)).
Proof.
  intros x l; unfold compute_tau2, tau2_R.
  rewrite truediv_int_ok by apply len_cons_neq_0.
  cbn [bind ret map Py.max hd tl].
  cbn [fltb of_Z fsub fabs fdiv R_Float].
  set (m := fold_left _ _ _).
  set (max_var := if Rltb 0 m then m else 1).
  assert (Hmax : max_var <> 0).
  { unfold max_var; destruct (Rltb 0 m) eqn:E; [|lra].
    apply Rltb_true in E; lra. }
  change (inr (?f x) :: ?r) with (f x :: r).
  rewrite (mapM_terms_R max_var (_ :: _) Hmax).
  cbn [bind ret map].
  rewrite truediv_int_ok by apply len_cons_neq_0.
  reflexivity.
Qed.

(** In exact arithmetic [tau_2] lies between 0 and 1. *)
Lemma compute_tau2_exact_range :
  forall (x : R) (l : list R),
  exists tau2, compute_tau2 (x :: l) = ret tau2 /\ 0 <= tau2 <= 1.
Proof.
  intros x l; exists (tau2_R (x :: l)); split; [apply compute_tau2_R|].
  unfold tau2_R.
  set (mean := Py.sum (x :: l) / IZR (Py.len (x :: l))).
  set (variances := map (fun score => Rabs (score - mean)) (x :: l)).
  set (m := fold_left _ _ _).
  set (max_var := if Rltb 0 m then m else 1).
  assert (Hnonneg : forall v, In v variances -> 0 <= v).
  { intros v Hv; apply in_map_iff in Hv as (s & <- & _); apply Rabs_pos. }
  assert (Hle : forall v, In v variances -> v <= m).
  { destruct (max_R_fold (tl variances) (hd 0 variances)) as [H1 H2].
    intros v Hv; unfold variances in Hv; cbn [map] in Hv.
    destruct Hv as [<-|Hv]; [exact H1|apply H2; exact Hv]. }
  assert (Hterm : forall t, In t (map (fun v => 1 - v / max_var) variances)
                            -> 0 <= t <= 1).
  { intros t Ht; apply in_map_iff in Ht as (v & <- & Hv).
    pose proof (Hnonneg v Hv) as H0; pose proof (Hle v Hv) as H1.
    unfold max_var; destruct (Rltb 0 m) eqn:E.
    - apply Rltb_true in E.
      assert (0 <= v / m <= 1).
      { split.
        - apply Rmult_le_pos; [exact H0|left; apply Rinv_0_lt_compat, E].
        - apply Rmult_le_reg_r with m; [exact E|].
          unfold Rdiv; rewrite Rmult_assoc, Rinv_l by lra; lra. }
      lra.
    - apply Rltb_false in E.
      replace v with 0 by lra.
      unfold Rdiv; rewrite Rmult_0_l; lra. }
  pose proof (sum_R_bounds _ Hterm) as Hsum.
  rewrite len_map in Hsum.
  assert (Hlen : 0 < IZR (Py.len variances)).
  { unfold variances; cbn [map]; rewrite len_R_cons.
    pose proof (len_R_nonneg _ (map (fun s => Rabs (s - mean)) l)); lra. }
  split.
  - apply Rmult_le_pos; [lra|left; apply Rinv_0_lt_compat, Hlen].
  - apply Rmult_le_reg_r with (IZR (Py.len variances)); [exact Hlen|].
    unfold Rdiv; rewrite Rmult_assoc, Rinv_l by lra; lra.
Qed.

(** In exact arithmetic [tau_2] is 1 when all scores are the same. *)
Lemma compute_tau2_exact_identical :
  forall (c : R) (l : list R),
    (forall y, In y l -> y = c) -> compute_tau2 (c :: l) = ret 1.
Proof.
  intros c l Hall; rewrite compute_tau2_R; f_equal.
  unfold tau2_R.
  assert (Hlen : 0 < IZR (Py.len (c :: l))).
  { rewrite len_R_cons; pose proof (len_R_nonneg _ l); lra. }
  assert (Hmean : Py.sum (c :: l) / IZR (Py.len (c :: l)) = c).
  { rewrite (sum_R_const c) by (intros y [<-|Hy]; [reflexivity|apply Hall, Hy]).
    field; lra. }
  rewrite Hmean.
  set (variances := map (fun score => Rabs (score - c)) (c :: l)).
  assert (Hzero : forall v, In v variances -> v = 0).
  { intros v Hv; apply in_map_iff in Hv as (s & <- & Hs).
    replace s with c
      by (destruct Hs as [<-|Hs]; [reflexivity|symmetry; apply Hall, Hs]).
    rewrite Rminus_diag; apply Rabs_R0. }
  set (m := fold_left _ _ _).
  assert (Hm : m = 0).
  { unfold m, variances; cbn [map hd tl].
    rewrite Rminus_diag, Rabs_R0.
    assert (G : forall r : list R,
               (forall v, In v r -> v = 0) ->
               fold_left (fun m y => if Rltb m y then y else m) r 0 = 0).
    { induction r as [|v r IH]; intros Hr; cbn; [reflexivity|].
      rewrite (Hr v) by (left; reflexivity).
      replace (Rltb 0 0) with false by (symmetry; apply Rltb_false; lra).
      apply IH; intros w Hw; apply Hr; right; exact Hw. }
    apply G; intros v Hv; apply Hzero; right; exact Hv. }
  rewrite Hm.
  replace (Rltb 0 0) with false by (symmetry; apply Rltb_false; lra).
  rewrite (sum_R_const 1).
  - rewrite len_map; unfold variances; rewrite len_map; field; lra.
  - intros t Ht; apply in_map_iff in Ht as (v & <- & Hv).
    rewrite (Hzero v Hv); field.
Qed.

(** *** Ranges of the structural metrics in exact arithmetic *)

Lemma insert_In :
  forall (x y : R) (l : list R), In y (Py.insert x l) -> y = x \/ In y l.
Proof.
  intros x y l; induction l as [|z l IH]; cbn.
  - intros [<-|[]]; left; reflexivity.
  - destruct (Rltb x z); cbn.
    + intros [<-|[<-|Hy]]; auto.
    + intros [<-|Hy]; [auto|]. destruct (IH Hy); auto.
Qed.

Lemma sorted_In : forall (y : R) (l : list R), In y (Py.sorted l) -> In y l.
Proof.
  intros y l; unfold Py.sorted.
  assert (G : forall acc : list R,
             In y (fold_left (fun acc x => Py.insert x acc) l acc)
             -> In y l \/ In y acc).
  { induction l as [|x l IH]; intros acc; cbn; [auto|].
    intros Hy; destruct (IH _ Hy) as [Hl|Hi]; [auto|].
    destruct (insert_In _ _ _ Hi) as [->|Ha]; auto. }
  intros Hy; destruct (G [] Hy) as [Hl|[]]; exact Hl.
Qed.

Lemma nth_sorted_nonneg :
  forall (l : list R) (i : nat),
    (forall x, In x l -> 0 <= x) -> 0 <= nth i (Py.sorted l) 0.
Proof.
  intros l i Hl.
  destruct (nth_in_or_default i (Py.sorted l) 0) as [Hin| ->]; [|lra].
  apply Hl, sorted_In, Hin.
Qed.

Lemma median_R_nonneg :
  forall l : list R,
    l <> [] -> (forall x, In x l -> 0 <= x) ->
    exists m, Py.median l = ret m /\ 0 <= m.
Proof.
  intros l Hne Hl; unfold Py.median.
  rewrite sorted_length.
  destruct l as [|x l]; [contradiction|].
  cbn [List.length Nat.eqb].
  pose proof (nth_sorted_nonneg (x :: l)) as Hnth.
  destruct (_ mod 2 =? 1)%nat.
  - eexists; split; [reflexivity|]. apply Hnth, Hl.
  - rewrite truediv_int_ok by discriminate.
    eexists; split; [reflexivity|].
    cbn [fdiv fadd of_Z R_Float].
    pose proof (Hnth (S (List.length l) / 2 - 1)%nat Hl).
    pose proof (Hnth (S (List.length l) / 2)%nat Hl).
    lra.
Qed.

Lemma mad_R_nonneg :
  forall fl : list Z, fl <> [] -> exists m : R, mad fl = ret m /\ 0 <= m.
Proof.
  intros fl Hfl; unfold mad.
  destruct (median_ok (F:=R) (map of_Z fl)) as [med ->].
  { destruct fl; [contradiction|discriminate]. }
  cbn [bind ret]; cbv zeta.
  destruct (median_R_nonneg (map (fun k => fabs (fsub (of_Z k) med)) fl))
    as (m & -> & Hm).
  { destruct fl; [contradiction|discriminate]. }
  { intros x Hx; apply in_map_iff in Hx as (k & <- & _).
    cbn [fabs R_Float]; apply Rabs_pos. }
  eexists; split; [reflexivity|].
  cbn [fmul lit R_Float]; lra.
Qed.

Lemma tau_0_of_R_range :
  forall (n : Z) (fl : list Z),
    fl <> [] ->
    exists tau_0 : R, tau_0_of n fl = ret tau_0 /\ 0 < tau_0 <= 1.
Proof.
  intros n fl Hfl; unfold tau_0_of.
  destruct (n >? 1).
  - destruct (mad_R_nonneg fl Hfl) as (m & -> & Hm); cbn [bind ret].
    cbn [feqb fadd fmul of_Z R_Float].
    replace (Reqb (1 + 2 * m) 0) with false
      by (symmetry; apply Reqb_false; lra).
    cbn [negb]; rewrite truediv_R by lra.
    eexists; split; [reflexivity|].
    assert (0 < 1 + 2 * m) by lra.
    split.
    + apply Rdiv_lt_0_compat; lra.
    + apply Rmult_le_reg_r with (1 + 2 * m); [lra|].
      unfold Rdiv; rewrite Rmult_assoc, Rinv_l by lra; lra.
  - exists 1; split; [reflexivity|lra].
Qed.

(** Every count of a [Counter] over [l] lies between 1 and [len(l)]. *)
Lemma counter_add_values :
  forall K (eqb : K -> K -> bool) (k : K) (cnt : list (K * Z)),
    (forall v, In v (Py.values cnt) -> 1 <= v)%Z ->
    (forall v, In v (Py.values (Py.counter_add eqb k cnt)) -> 1 <= v)%Z
    /\ (fold_right Z.add 0 (Py.values (Py.counter_add eqb k cnt))
        = fold_right Z.add 0 (Py.values cnt) + 1)%Z.
Proof.
  intros K eqb k cnt; unfold Py.values.
  induction cnt as [|[k' v'] cnt IH]; intros Hcnt; cbn.
  - split; [intros v [<-|[]]; lia|reflexivity].
  - destruct (eqb k k'); cbn.
    + split; [|lia].
      intros v [<-|Hv].
      * specialize (Hcnt v' (or_introl eq_refl)); lia.
      * apply Hcnt; right; exact Hv.
    + destruct IH as [IH1 IH2].
      { intros v Hv; apply Hcnt; right; exact Hv. }
      split; [|lia].
      intros v [<-|Hv]; [apply Hcnt; left; reflexivity|apply IH1, Hv].
Qed.

Lemma Counter_values :
  forall K (eqb : K -> K -> bool) (l : list K),
    (forall v, In v (Py.values (Py.Counter eqb l)) -> 1 <= v)%Z
    /\ (fold_right Z.add 0 (Py.values (Py.Counter eqb l)) = Py.len l)%Z.
Proof.
  intros K eqb l; unfold Py.Counter.
  assert (G : forall cnt : list (K * Z),
             (forall v, In v (Py.values cnt) -> 1 <= v)%Z ->
             (forall v,
                 In v (Py.values (fold_left
                                    (fun cnt k => Py.counter_add eqb k cnt)
                                    l cnt)) -> 1 <= v)%Z
             /\ (fold_right Z.add 0
                   (Py.values (fold_left
                                 (fun cnt k => Py.counter_add eqb k cnt)
                                 l cnt))
                 = fold_right Z.add 0 (Py.values cnt) + Py.len l)%Z).
  { induction l as [|k l IH]; intros cnt Hcnt; cbn [fold_left].
    - split; [exact Hcnt|unfold Py.len; cbn; lia].
    - destruct (counter_add_values K eqb k cnt Hcnt) as [H1 H2].
      destruct (IH _ H1) as [I1 I2]; split; [exact I1|].
      rewrite I2, H2; unfold Py.len; cbn [List.length]; lia. }
  destruct (G []) as [G1 G2]; [intros v []|].
  split; [exact G1|rewrite G2; cbn; lia].
Qed.

Lemma In_le_sum :
  forall (l : list Z) (v : Z),
    (forall w, In w l -> 1 <= w)%Z -> In v l ->
    (v <= fold_right Z.add 0 l)%Z.
Proof.
  induction l as [|x l IH]; intros v Hl [].
  - subst; cbn.
    assert (0 <= fold_right Z.add 0 l)%Z; [|lia].
    clear IH; induction l as [|y l IH]; cbn; [lia|].
    assert (1 <= y)%Z by (apply Hl; right; left; reflexivity).
    assert (0 <= fold_right Z.add 0 l)%Z; [|lia].
    apply IH; intros w [<-|Hw]; apply Hl; [left|right; right]; auto.
  - cbn. assert (1 <= x)%Z by (apply Hl; left; reflexivity).
    assert (v <= fold_right Z.add 0 l)%Z; [|lia].
    apply IH; [intros w Hw; apply Hl; right; exact Hw|assumption].
Qed.

Lemma Counter_values_le :
  forall K (eqb : K -> K -> bool) (l : list K) (v : Z),
    In v (Py.values (Py.Counter eqb l)) -> (1 <= v <= Py.len l)%Z.
Proof.
  intros K eqb l v Hv.
  destruct (Counter_values K eqb l) as [H1 H2].
  split; [apply H1, Hv|].
  rewrite <- H2; apply In_le_sum; assumption.
Qed.

Lemma ln_nonpos : forall p : R, 0 < p <= 1 -> ln p <= 0.
Proof.
  intros p [Hp [Hlt| ->]].
  - left; rewrite <- ln_1; apply ln_increasing; assumption.
  - rewrite ln_1; lra.
Qed.

Lemma ln2_pos : 0 < ln 2.
Proof.
  pose proof ln_lt_2; lra.
Qed.

(** The entropy loop never yields a negative number. *)
Lemma entropy_loop_R_nonneg :
  forall (counts : list Z) (n : Z),
    (0 < n)%Z -> (forall c, In c counts -> (c <= n)%Z) ->
    exists h : R, entropy_loop counts n = ret h /\ 0 <= h.
Proof.
  intros counts n Hn; unfold entropy_loop.
  set (body := fun (entropy : R) (count : Z) => bind _ _).
  assert (G : forall acc : R,
             (forall c, In c counts -> (c <= n)%Z) -> 0 <= acc ->
             exists h, foldM body counts acc = ret h /\ 0 <= h).
  { induction counts as [|k counts IH]; intros acc Hc Hacc; cbn [foldM].
    - exists acc; split; [reflexivity|exact Hacc].
    - unfold body at 1.
      rewrite int_truediv_ok by lia; cbn [bind ret].
      cbn [fltb fdiv fsub fmul of_Z math_log2 R_Float R_FloatMath].
      destruct (Rltb 0 (IZR k / IZR n)) eqn:E; cbn [bind ret].
      + apply Rltb_true in E.
        apply IH; [intros c Hin; apply Hc; right; exact Hin|].
        assert (Hle : IZR k / IZR n <= 1).
        { assert (0 < IZR n) by (apply IZR_lt; exact Hn).
          apply Rmult_le_reg_r with (IZR n); [assumption|].
          unfold Rdiv; rewrite Rmult_assoc, Rinv_l by lra.
          rewrite Rmult_1_r, Rmult_1_l; apply IZR_le, Hc; left; reflexivity. }
        pose proof (ln_nonpos _ (conj E Hle)) as Hln.
        pose proof ln2_pos as H2.
        assert (ln (IZR k / IZR n) / ln 2 <= 0).
        { apply Rmult_le_reg_r with (ln 2); [exact H2|].
          unfold Rdiv; rewrite Rmult_assoc, Rinv_l by lra; lra. }
        nra.
      + apply IH; [intros c Hin; apply Hc; right; exact Hin|exact Hacc]. }
  intros Hc; apply G; [exact Hc|cbn; lra].
Qed.

Lemma tau_3_of_R_nonneg :
  forall t : Table, exists tau_3 : R, tau_3_of t = ret tau_3 /\ 0 <= tau_3.
Proof.
  intros t; unfold tau_3_of.
  set (shapes := map _ t).
  destruct (Py.len shapes =? 0)%Z eqn:E.
  - exists 0; split; [reflexivity|lra].
  - apply Z.eqb_neq in E.
    apply entropy_loop_R_nonneg.
    + unfold Py.len in *; lia.
    + intros c Hc; apply (Counter_values_le _ _ _ _ Hc).
Qed.

Lemma scan_step_inv :
  forall (n : nat) (fl : list Z) (phi : R) (s : scan_state) (i : nat),
    scan_inv i s -> scan_inv (S i) (scan_step n fl phi s i).
Proof.
  intros n fl phi s i (Hk & Hc & Hsm & Ha).
  unfold scan_step, scan_inv.
  destruct (i =? 0)%nat.
  - cbn [k_min k_max c sm alpha].
    destruct (n =? 1)%nat; lia.
  - destruct (negb _); cbn [k_min k_max c sm alpha].
    + destruct (nth i fl 0 >? k_max s)%Z eqn:E1;
        destruct (nth i fl 0 <? k_min s)%Z eqn:E2;
        destruct (c s >? sm s)%Z; lia.
    + destruct (nth i fl 0 >? k_max s)%Z eqn:E1;
        destruct (nth i fl 0 <? k_min s)%Z eqn:E2;
        destruct (i =? n - 1)%nat;
        destruct (c s + 1 >? sm s)%Z; lia.
Qed.

Lemma scan_fold_inv :
  forall (n : nat) (fl : list Z) (phi : R) (len start : nat) (s : scan_state),
    scan_inv start s ->
    scan_inv (start + len)
             (fold_left (scan_step n fl phi) (seq start len) s).
Proof.
  intros n fl phi len; induction len as [|len IH]; intros start s Hs.
  - cbn; rewrite Nat.add_0_r; exact Hs.
  - cbn [seq fold_left].
    replace (start + S len)%nat with (S start + len)%nat by lia.
    apply IH, scan_step_inv, Hs.
Qed.

Lemma scan_inv_final :
  forall (fl : list Z) (phi : R), scan_inv (List.length fl) (scan fl phi).
Proof.
  intros fl phi; unfold scan.
  apply (scan_fold_inv _ fl phi (List.length fl) 0%nat).
  unfold scan_inv; cbn; lia.
Qed.

Lemma base_tau_1_R_nonneg :
  forall (fl : list Z) (phi : R),
    fl <> [] ->
    exists b : R, base_tau_1 (scan fl phi) (Py.len fl) = ret b /\ 0 <= b.
Proof.
  intros fl phi Hfl.
  pose proof (scan_inv_final fl phi) as (Hk & Hc & Hsm & Ha).
  assert (Hn : (0 < Py.len fl)%Z).
  { unfold Py.len; destruct fl; [contradiction|cbn [List.length]; lia]. }
  unfold base_tau_1.
  destruct (alpha (scan fl phi) >? 0)%Z; cbn [andb];
    [|exists 0; split; [reflexivity|lra]].
  destruct (sm (scan fl phi) >? 0)%Z eqn:Esm;
    [|exists 0; split; [reflexivity|lra]].
  rewrite Z.gtb_ltb in Esm; apply Z.ltb_lt in Esm.
  rewrite int_truediv_ok by lia; cbn [bind ret].
  rewrite truediv_int_ok by lia.
  eexists; split; [reflexivity|].
  cbn [fmul fadd fsub fdiv of_Z math_pow R_Float R_FloatMath].
  set (s := scan fl phi) in *.
  assert (H0 : 0 < IZR (sm s)) by (apply IZR_lt; exact Esm).
  assert (H1 : IZR (sm s) <= IZR (Py.len fl))
    by (apply IZR_le; unfold Py.len; lia).
  assert (H2 : 0 <= IZR (2 * (k_max s - k_min s))) by (apply IZR_le; lia).
  assert (H3 : 0 <= powerRZ (IZR (alpha s)) 2 + 1).
  { replace (powerRZ (IZR (alpha s)) 2) with (Rsqr (IZR (alpha s)))
      by (unfold Rsqr; simpl; ring).
    pose proof (Rle_0_sqr (IZR (alpha s))); lra. }
  assert (H4 : 0 <= (1 - IZR (sm s) / IZR (Py.len fl)) / IZR (sm s)).
  { apply Rmult_le_pos; [|left; apply Rinv_0_lt_compat; exact H0].
    assert (IZR (sm s) / IZR (Py.len fl) <= 1); [|lra].
    apply Rmult_le_reg_r with (IZR (Py.len fl)); [lra|].
    unfold Rdiv; rewrite Rmult_assoc, Rinv_l by lra; lra. }
  apply Rmult_le_pos; [apply Rmult_le_pos|]; assumption.
Qed.

Lemma tau_1_of_R_nonneg :
  forall (fl : list Z) (phi : R),
    fl <> [] ->
    exists tau_1 : R, tau_1_of (Py.len fl) fl phi = ret tau_1 /\ 0 <= tau_1.
Proof.
  intros fl phi Hfl; unfold tau_1_of.
  destruct (base_tau_1_R_nonneg fl phi Hfl) as (b & -> & Hb).
  cbn [bind ret].
  destruct (entropy_loop_R_nonneg (Py.values (Py.Counter Z.eqb fl)) (Py.len fl))
    as (h & -> & Hh).
  { unfold Py.len; destruct fl; [contradiction|cbn [List.length]; lia]. }
  { intros c Hc; apply (Counter_values_le _ _ _ _ Hc). }
  eexists; split; [reflexivity|].
  cbn [fmul fadd of_Z R_Float].
  apply Rmult_le_pos; lra.
Qed.

(** *** [compute] and [overall_score] in exact arithmetic *)

Lemma compute_tau2_R_ok :
  forall l : list R, exists tau2, compute_tau2 l = ret tau2.
Proof.
  intros [|x l]; [eexists; reflexivity|].
  rewrite compute_tau2_R; eexists; reflexivity.
Qed.

Lemma compute_R_nonempty :
  forall td d (row : list string) (rows : Table) (v : R) tr,
  exists tau_0 tau_1 tau_2 tau_3 new_lambda_sum,
    compute td {| table := Some (row :: rows); dialect := Some d;
                  lambda_sum := v |} tr
    = (inr [tau_0; tau_1; tau_2; tau_3; new_lambda_sum],
       {| table := Some (row :: rows); dialect := Some d;
          lambda_sum := new_lambda_sum |},
       tr ++ table_events td d (row :: rows))
    /\ tau_0_of (Py.len (row :: rows)) (map Py.len (row :: rows)) = ret tau_0
    /\ 0 < tau_0 <= 1 /\ 0 <= tau_1 /\ 0 <= tau_3.
Proof.
  intros td d row rows v tr.
  destruct (compute_run td d row rows v tr) as (avgs & ls & _ & ->).
  destruct (tau_0_of_R_range (Py.len (row :: rows)) (map Py.len (row :: rows)))
    as (tau_0 & E0 & H0); [discriminate|].
  rewrite E0; cbn [bind ret].
  destruct (avg_fields_of_ok (F:=R) row rows) as [phi ->]; cbn [bind ret].
  destruct (tau_1_of_R_nonneg (map Py.len (row :: rows)) phi)
    as (tau_1 & E1 & H1); [discriminate|].
  rewrite len_map in E1; rewrite E1; cbn [bind ret].
  destruct (compute_tau2_R_ok avgs) as [tau_2 ->]; cbn [bind ret].
  destruct (tau_3_of_R_nonneg (row :: rows)) as (tau_3 & -> & H3).
  exists tau_0, tau_1, tau_2, tau_3, ls; repeat split; try assumption;
    apply H0.
Qed.

Lemma overall_score_R_nonempty :
  forall td d (row : list string) (rows : Table) (v : R) tr (delta : R)
         tau_0 tau_1 tau_2 tau_3 ls v' tr',
    let t := row :: rows in
    compute td {| table := Some t; dialect := Some d; lambda_sum := v |} tr
    = (inr [tau_0; tau_1; tau_2; tau_3; ls],
       {| table := Some t; dialect := Some d; lambda_sum := v' |}, tr') ->
    overall_score td delta
      {| table := Some t; dialect := Some d; lambda_sum := v |} tr
    = (if Reqb (tau_1 + IZR (Py.len t)) 0 || Reqb (tau_3 + 1) 0
       then inr 0
       else if Reqb delta 0 then inl ZeroDivisionError
       else inr (omega' tau_0 tau_1 tau_2 tau_3 ls (Py.len t) delta),
       {| table := Some t; dialect := Some d; lambda_sum := v' |}, tr').
Proof.
  intros td d row rows v tr delta tau_0 tau_1 tau_2 tau_3 ls v' tr' t Hc.
  unfold overall_score, mbind at 1; rewrite Hc.
  unfold the_table, mbind, get, mret, lift; cbn [table].
  cbn [feqb fadd fmul of_Z R_Float].
  destruct (Reqb (tau_1 + IZR (Py.len t)) 0) eqn:E1; [reflexivity|].
  destruct (Reqb (tau_3 + 1) 0) eqn:E3; [reflexivity|].
  cbn [orb].
  apply Reqb_false in E1, E3.
  assert (Hn : IZR (Py.len t) <> 0).
  { unfold t; rewrite len_R_cons; pose proof (len_R_nonneg _ rows); lra. }
  destruct (Reqb delta 0) eqn:Ed.
  - apply Reqb_true in Ed; subst delta.
    rewrite truediv_R_zero; reflexivity.
  - apply Reqb_false in Ed.
    rewrite !truediv_R; try assumption.
    + rewrite truediv_int_ok by apply len_cons_neq_0.
      cbn [bind ret fdiv fadd fmul R_Float].
      unfold ret; cbn [of_Z R_Float].
      match goal with
      | |- (inr ?a, _, _) = (inr ?b, _, _) =>
          replace a with b; [reflexivity|]
      end.
      unfold omega'; field.
      repeat split; try assumption; lra.
    + apply Rmult_integral_contrapositive_currified; [lra|exact Hn].
Qed.

Lemma overall_score_R_empty :
  forall td d (v delta : R) tr,
    overall_score td delta
      {| table := Some []; dialect := Some d; lambda_sum := v |} tr
    = (inr 0, {| table := Some []; dialect := Some d; lambda_sum := v |}, tr).
Proof.
  intros td d v delta tr.
  unfold overall_score, compute, validate, the_table, mbind, get, mret, lift.
  cbn [table dialect Py.len List.length Z.of_nat Z.eqb].
  cbn [feqb fadd of_Z R_Float].
  replace (Reqb (0 + 0) 0) with true
    by (symmetry; apply Reqb_true; lra).
  reflexivity.
Qed.

Lemma overall_score_R_run :
  forall td d (row : list string) (rows : Table) (v delta : R) tr,
    let t := row :: rows in
    exists tau_0 tau_1 tau_2 tau_3 ls,
      compute td {| table := Some t; dialect := Some d; lambda_sum := v |} tr
      = (inr [tau_0; tau_1; tau_2; tau_3; ls],
         {| table := Some t; dialect := Some d; lambda_sum := ls |},
         tr ++ table_events td d t)
      /\ tau_1 + IZR (Py.len t) <> 0 /\ tau_3 + 1 <> 0
      /\ overall_score td delta
           {| table := Some t; dialect := Some d; lambda_sum := v |} tr
         = (if Reqb delta 0 then inl ZeroDivisionError
            else inr (omega' tau_0 tau_1 tau_2 tau_3 ls (Py.len t) delta),
            {| table := Some t; dialect := Some d; lambda_sum := ls |},
            tr ++ table_events td d t).
Proof.
  intros td d row rows v delta tr t; subst t.
  destruct (compute_R_nonempty td d row rows v tr)
    as (tau_0 & tau_1 & tau_2 & tau_3 & ls & Hc & _ & _ & H1 & H3).
  assert (Hn : 0 < IZR (Py.len (row :: rows))).
  { rewrite len_R_cons; pose proof (len_R_nonneg _ rows); lra. }
  exists tau_0, tau_1, tau_2, tau_3, ls.
  split; [exact Hc|]; split; [lra|]; split; [lra|].
  rewrite (overall_score_R_nonempty td d row rows v tr delta _ _ _ _ _ _ _ Hc).
  replace (Reqb (tau_1 + IZR (Py.len (row :: rows))) 0) with false
    by (symmetry; apply Reqb_false; lra).
  replace (Reqb (tau_3 + 1) 0) with false
    by (symmetry; apply Reqb_false; lra).
  reflexivity.
Qed.

(** C1, for a divisor other than 0: on a table with at least one record
    [overall_score(delta)] returns
    [tau_0/delta + 1/(tau_1+n) + tau_2/n + lambda_sum/((1+tau_3)*n)] for
    the metric vector of [compute()] and [n] records; and on any table,
    whenever [tau_1+n = 0] or [tau_3+1 = 0], it returns 0.0 without
    dividing, whatever the divisor. *)
Theorem overall_score_formula :
  forall td d (t : Table) (v delta : R) tr,
    let o := {| table := Some t; dialect := Some d; lambda_sum := v |} in
    (t <> [] -> delta <> 0 ->
     exists tau_0 tau_1 tau_2 tau_3 ls o' tr',
       compute td o tr = (inr [tau_0; tau_1; tau_2; tau_3; ls], o', tr')
       /\ overall_score td delta o tr
          = (inr (tau_0 / delta + 1 / (tau_1 + IZR (Py.len t))
                  + tau_2 / IZR (Py.len t)
                  + ls / ((1 + tau_3) * IZR (Py.len t))),
             o', tr'))
    /\ (forall tau_0 tau_1 tau_2 tau_3 ls o' tr',
           compute td o tr = (inr [tau_0; tau_1; tau_2; tau_3; ls], o', tr') ->
           tau_1 + IZR (Py.len t) = 0 \/ tau_3 + 1 = 0 ->
           overall_score td delta o tr = (inr 0, o', tr')).
Proof.
  intros td d t v delta tr o; subst o; split.
  - intros Ht Hd.
    destruct t as [|row rows]; [contradiction|].
    destruct (overall_score_R_run td d row rows v delta tr)
      as (tau_0 & tau_1 & tau_2 & tau_3 & ls & Hc & _ & _ & Hs).
    exists tau_0, tau_1, tau_2, tau_3, ls.
    do 2 eexists; split; [exact Hc|].
    rewrite Hs.
    replace (Reqb delta 0) with false by (symmetry; apply Reqb_false, Hd).
    reflexivity.
  - intros tau_0 tau_1 tau_2 tau_3 ls o' tr' Hc Hguard.
    destruct t as [|row rows].
    + rewrite overall_score_R_empty.
      rewrite compute_nil in Hc.
      inversion Hc; subst; reflexivity.
    + destruct (overall_score_R_run td d row rows v delta tr)
        as (t0 & t1 & t2 & t3 & l & Hc' & H1 & H3 & _).
      rewrite Hc' in Hc.
      inversion Hc; subst.
      destruct Hguard; contradiction.
Qed.

(** C1 at a concrete sample, with divisor 10. *)
Lemma overall_score_formula_witness :
  exists tau_0 tau_1 tau_2 tau_3 ls o' tr',
    compute detect_nothing
      {| table := Some one_record; dialect := Some comma_dialect;
         lambda_sum := 0 |} []
    = (inr [tau_0; tau_1; tau_2; tau_3; ls], o', tr')
    /\ overall_score detect_nothing 10
         {| table := Some one_record; dialect := Some comma_dialect;
            lambda_sum := 0 |} []
       = (inr (tau_0 / 10 + 1 / (tau_1 + IZR (Py.len one_record))
               + tau_2 / IZR (Py.len one_record)
               + ls / ((1 + tau_3) * IZR (Py.len one_record))),
          o', tr').
Proof.
  apply (proj1 (overall_score_formula detect_nothing comma_dialect
                  one_record 0 10 [])).
  - discriminate.
  - lra.
Defined.

(** C1 as stated fails at the divisor 0: the first quotient raises. *)
Lemma overall_score_delta_zero_raises :
  fst (fst (overall_score detect_everything 0
              {| table := Some short_first_run; dialect := Some comma_dialect;
                 lambda_sum := 0 |} []))
  = inl ZeroDivisionError.
Proof.
  destruct (overall_score_R_run detect_everything comma_dialect
              ["a"%string] (tl short_first_run) 0 0 [])
    as (tau_0 & tau_1 & tau_2 & tau_3 & ls & _ & _ & _ & Hs).
  change (["a"%string] :: tl short_first_run) with short_first_run in Hs.
  rewrite Hs.
  replace (Reqb 0 0) with true by (symmetry; apply Reqb_true; reflexivity).
  reflexivity.
Qed.

(** C7, for a divisor other than 0 or an empty table: [compute] always
    returns a metric vector and [overall_score] a score; no division
    fault escapes, each denominator being tested before it is used. *)
Theorem no_division_fault :
  forall td d (t : Table) (v delta : R) tr,
    delta <> 0 \/ t = [] ->
    let o := {| table := Some t; dialect := Some d; lambda_sum := v |} in
    (exists metrics o' tr', compute td o tr = (inr metrics, o', tr'))
    /\ (exists score o' tr', overall_score td delta o tr = (inr score, o', tr')).
Proof.
  intros td d t v delta tr Hd o; subst o.
  destruct t as [|row rows].
  - split.
    + do 3 eexists; apply compute_nil.
    + do 3 eexists; apply overall_score_R_empty.
  - destruct Hd as [Hd|Hd]; [|discriminate].
    destruct (overall_score_R_run td d row rows v delta tr)
      as (tau_0 & tau_1 & tau_2 & tau_3 & ls & Hc & _ & _ & Hs).
    split.
    + do 3 eexists; exact Hc.
    + rewrite Hs.
      replace (Reqb delta 0) with false by (symmetry; apply Reqb_false, Hd).
      do 3 eexists; reflexivity.
Qed.

Lemma no_division_fault_witness :
  (exists metrics o' tr',
      compute detect_nothing
        {| table := Some one_record; dialect := Some comma_dialect;
           lambda_sum := 0 |} []
      = (inr metrics, o', tr'))
  /\ (exists score o' tr',
         overall_score detect_nothing 10
           {| table := Some one_record; dialect := Some comma_dialect;
              lambda_sum := 0 |} []
         = (inr score, o', tr')).
Proof.
  apply (no_division_fault detect_nothing comma_dialect one_record 0 10 []).
  left; lra.
Defined.

(** C7 as stated fails at the divisor 0 on a table with a record:
    [overall_score(0)] raises [ZeroDivisionError]. *)
Lemma overall_score_zero_delta_faults :
  fst (fst (overall_score detect_nothing 0
              {| table := Some one_record; dialect := Some comma_dialect;
                 lambda_sum := 0 |} []))
  = inl ZeroDivisionError.
Proof.
  destruct (overall_score_R_run detect_nothing comma_dialect
              ["x"; "y"; "z"]%string [] 0 0 [])
    as (tau_0 & tau_1 & tau_2 & tau_3 & ls & _ & _ & _ & Hs).
  change ([["x"; "y"; "z"]%string]) with one_record in Hs.
  rewrite Hs.
  replace (Reqb 0 0) with true by (symmetry; apply Reqb_true; reflexivity).
  reflexivity.
Qed.

(** ** Length consistency [tau_0] *)

(** C9: with two records or more, the MAD is not negative, the
    denominator [1 + 2*MAD] is at least 1, so the test against 0 never
    selects the fallback, and the first metric of [compute] is
    [1 / (1 + 2*MAD)], a number in (0, 1]. *)
Theorem tau_0_in_unit_interval :
  forall td d (t : Table) (v : R) tr,
    (2 <= Py.len t)%Z ->
    exists m tau_0 rest o' tr',
      mad (map Py.len t) = ret m
      /\ 0 <= m
      /\ 1 <= 1 + 2 * m
      /\ feqb (fadd (of_Z 1) (fmul (of_Z 2) m)) (of_Z 0) = false
      /\ tau_0 = 1 / (1 + 2 * m)
      /\ 0 < tau_0 <= 1
      /\ compute td {| table := Some t; dialect := Some d; lambda_sum := v |} tr
         = (inr (tau_0 :: rest), o', tr').
Proof.
  intros td d t v tr Hlen.
  destruct t as [|row rows]; [unfold Py.len in Hlen; cbn in Hlen; lia|].
  destruct (mad_R_nonneg (map Py.len (row :: rows))) as (m & Em & Hm);
    [discriminate|].
  destruct (compute_R_nonempty td d row rows v tr)
    as (tau_0 & tau_1 & tau_2 & tau_3 & ls & Hc & E0 & H0 & _).
  assert (Hne : Reqb (1 + 2 * m) 0 = false) by (apply Reqb_false; lra).
  assert (Etau : tau_0 = 1 / (1 + 2 * m)).
  { unfold tau_0_of in E0.
    replace (Py.len (row :: rows) >? 1)%Z with true in E0
      by (symmetry; rewrite Z.gtb_ltb; apply Z.ltb_lt; lia).
    rewrite Em in E0; cbn [bind ret] in E0.
    cbn [feqb fadd fmul of_Z R_Float] in E0.
    rewrite Hne in E0; cbn [negb] in E0.
    rewrite truediv_R in E0 by lra.
    injection E0 as <-; reflexivity. }
  exists m, tau_0, [tau_1; tau_2; tau_3; ls].
  do 2 eexists.
  repeat split; try exact Em; try exact Hc; try exact Hne; try exact Etau;
    try apply H0; lra.
Qed.

Lemma tau_0_in_unit_interval_witness :
  exists m tau_0 rest o' tr',
    mad (map Py.len short_first_run) = ret m
    /\ 0 <= m
    /\ 1 <= 1 + 2 * m
    /\ feqb (fadd (of_Z 1) (fmul (of_Z 2) m)) (of_Z 0) = false
    /\ tau_0 = 1 / (1 + 2 * m)
    /\ 0 < tau_0 <= 1
    /\ compute detect_everything
         {| table := Some short_first_run; dialect := Some comma_dialect;
            lambda_sum := 0 |} []
       = (inr (tau_0 :: rest), o', tr').
Proof.
  apply (tau_0_in_unit_interval detect_everything comma_dialect
           short_first_run 0 []).
  vm_compute; discriminate.
Defined.

(** ** Validation *)

(** C4, as the code has it: the scorer rejects a missing table and a
    missing dialect with [ValueError], before any other step (instance
    and trace are untouched); with both present it never raises
    [ValueError], whether or not the dialect reports itself valid:
    [compute] returns and [overall_score] returns or fails on the
    divisor.  Validity of the dialect is tested by [t_score.validate]
    alone, together with the path. *)
Theorem validation_contract :
  forall td (t : Table) (ot : option Table) (d : Dialect)
         (od : option Dialect) (v delta : R) (tr : list event)
         (a : ascii) (p : string) (thr : Z) (enc : string),
    let no_table := {| table := None; dialect := od; lambda_sum := v |} in
    let no_dialect := {| table := ot; dialect := None; lambda_sum := v |} in
    let both := {| table := Some t; dialect := Some d; lambda_sum := v |} in
    compute td no_table tr = (inl ValueError, no_table, tr)
    /\ overall_score td delta no_table tr = (inl ValueError, no_table, tr)
    /\ compute td no_dialect tr = (inl ValueError, no_dialect, tr)
    /\ overall_score td delta no_dialect tr = (inl ValueError, no_dialect, tr)
    /\ (exists metrics o' tr', compute td both tr = (inr metrics, o', tr'))
    /\ (exists r o' tr',
           overall_score td delta both tr = (r, o', tr')
           /\ (r = inl ZeroDivisionError \/ exists score, r = inr score))
    /\ t_score.validate
         {| t_score.csv_path := None; t_score.dialect := od;
            t_score.threshold := thr; t_score.encoding := enc |} tr
       = (inl ValueError,
          {| t_score.csv_path := None; t_score.dialect := od;
             t_score.threshold := thr; t_score.encoding := enc |}, tr)
    /\ t_score.validate
         {| t_score.csv_path := Some EmptyString; t_score.dialect := od;
            t_score.threshold := thr; t_score.encoding := enc |} tr
       = (inl ValueError,
          {| t_score.csv_path := Some EmptyString; t_score.dialect := od;
             t_score.threshold := thr; t_score.encoding := enc |}, tr)
    /\ t_score.validate
         {| t_score.csv_path := Some (String a p); t_score.dialect := None;
            t_score.threshold := thr; t_score.encoding := enc |} tr
       = (inl ValueError,
          {| t_score.csv_path := Some (String a p); t_score.dialect := None;
             t_score.threshold := thr; t_score.encoding := enc |}, tr)
    /\ t_score.validate
         {| t_score.csv_path := Some (String a p); t_score.dialect := Some d;
            t_score.threshold := thr; t_score.encoding := enc |} tr
       = (if csv_dialect.validate d then inr tt else inl ValueError,
          {| t_score.csv_path := Some (String a p); t_score.dialect := Some d;
             t_score.threshold := thr; t_score.encoding := enc |}, tr).
Proof.
  intros td t ot d od v delta tr a p thr enc no_table no_dialect both.
  subst no_table no_dialect both.
  split; [reflexivity|]; split; [reflexivity|].
  split; [destruct ot; reflexivity|]; split; [destruct ot; reflexivity|].
  split; [|split].
  - destruct t as [|row rows].
    + do 3 eexists; apply compute_nil.
    + destruct (compute_R_nonempty td d row rows v tr)
        as (t0 & t1 & t2 & t3 & ls & Hc & _).
      do 3 eexists; exact Hc.
  - destruct t as [|row rows].
    + do 3 eexists; split; [apply overall_score_R_empty|].
      right; eexists; reflexivity.
    + destruct (overall_score_R_run td d row rows v delta tr)
        as (t0 & t1 & t2 & t3 & ls & _ & _ & _ & Hs).
      do 3 eexists; split; [exact Hs|].
      destruct (Reqb delta 0); [left; reflexivity|right; eexists; reflexivity].
  - repeat split; try reflexivity.
    unfold t_score.validate, mbind, get, mret, mraise; cbn.
    destruct (csv_dialect.validate d); reflexivity.
Qed.

(** C4 as stated fails: the scorer accepts a dialect that reports
    itself invalid. *)
Lemma scorer_accepts_invalid_dialect :
  csv_dialect.validate invalid_dialect = false
  /\ compute (F := R) detect_nothing
       {| table := Some []; dialect := Some invalid_dialect;
          lambda_sum := 0 |} []
     = (inr [0; 0; 0; 0; 0],
        {| table := Some []; dialect := Some invalid_dialect;
           lambda_sum := 0 |}, []).
Proof.
  split; reflexivity.
Qed.
End ExactArithmetic.


(* ================================================================== *)
(** * Further properties of the scan                                    *)
(* ================================================================== *)

Section ScanProperties.
Context {F : Type} `{Float F} `{FloatMath F}.

Lemma scan_step_walk_step :
  forall (n : nat) (fl : list Z) (phi : F) (s : scan_state) (i : nat),
    (0 < i)%nat ->
    scan_step n fl phi s i
    = walk_step (i =? n - 1)%nat (nth (i - 1) fl 0) (nth i fl 0) phi s.
Proof.
  intros n fl phi s i Hi; unfold scan_step, walk_step.
  replace (i =? 0)%nat with false by (symmetry; apply Nat.eqb_neq; lia).
  reflexivity.
Qed.

Lemma fold_scan_walk :
  forall (rest pre : list Z) (p : Z) (phi : F) (s : scan_state),
    let fl := (pre ++ [p]) ++ rest in
    fold_left (scan_step (List.length fl) fl phi)
              (seq (List.length pre + 1) (List.length rest)) s
    = walk p rest phi s.
Proof.
  induction rest as [|x rest IH]; intros pre p phi s fl.
  - reflexivity.
  - cbn [List.length seq fold_left walk].
    rewrite scan_step_walk_step by lia.
    assert (Hx : nth (List.length pre + 1) fl 0 = x).
    { unfold fl; rewrite app_nth2; rewrite length_app; cbn [List.length];
        [|lia].
      replace (_ - _)%nat with 0%nat by lia; reflexivity. }
    assert (Hp : nth (List.length pre + 1 - 1) fl 0 = p).
    { unfold fl; rewrite app_nth1
        by (rewrite length_app; cbn [List.length]; lia).
      rewrite app_nth2 by lia.
      replace (_ - _)%nat with 0%nat by lia; reflexivity. }
    assert (Hlast : (List.length pre + 1 =? List.length fl - 1)%nat
                    = match rest with [] => true | _ => false end).
    { unfold fl; rewrite !length_app; cbn [List.length].
      destruct rest; cbn [List.length];
        [apply Nat.eqb_eq|apply Nat.eqb_neq]; lia. }
    rewrite Hx, Hp, Hlast.
    specialize (IH (pre ++ [p]) x phi).
    cbv zeta in IH.
    replace (((pre ++ [p]) ++ [x]) ++ rest) with fl in IH
      by (unfold fl; rewrite <- !app_assoc; reflexivity).
    rewrite length_app in IH; cbn [List.length] in IH.
    replace (S (List.length pre + 1)) with (List.length pre + 1 + 1)%nat by lia.
    apply IH.
Qed.

(** The scan of a non-empty list: the first record seeds the counter,
    the walk does the rest. *)
Lemma scan_as_walk :
  forall (x : Z) (xs : list Z) (phi : F),
    scan (x :: xs) phi
    = walk x xs phi
        {| mu := fadd (of_Z 0) (math_pow (fsub (of_Z x) phi) 2);
           c := 1;
           sm := match xs with [] => 1 | _ => 0 end;
           alpha := 0; k_max := x; k_min := x |}.
Proof.
  intros x xs phi; unfold scan.
  cbn [List.length seq fold_left].
  rewrite <- (fold_scan_walk xs [] x phi).
  cbn [app List.length Nat.add].
  f_equal.
  unfold scan_step; cbn [Nat.eqb nth mu c sm alpha k_max k_min].
  destruct xs; reflexivity.
Qed.

Lemma runs_cons :
  forall (x : Z) (l : list Z),
  exists r rs, runs (x :: l) = r :: rs /\ 1 <= r.
Proof.
  intros x l; revert x; induction l as [|y l IH]; intros x.
  - exists 1, []; split; [reflexivity|lia].
  - destruct (IH y) as (r & rs & E & Hr).
    cbn [runs] in E |- *; rewrite E.
    destruct (x =? y); do 2 eexists; split; try reflexivity; lia.
Qed.

Lemma runs_cons_cons :
  forall (x y : Z) (l : list Z) (r : Z) (rs : list Z),
    runs (y :: l) = r :: rs ->
    runs (x :: y :: l) = if x =? y then (r + 1) :: rs else 1 :: r :: rs.
Proof.
  intros x y l r rs E.
  change (runs (x :: y :: l))
    with (match runs (y :: l) with
          | [] => [1]
          | r :: rs => if x =? y then (r + 1) :: rs else 1 :: r :: rs
          end).
  rewrite E; reflexivity.
Qed.

Lemma fold_max_swap :
  forall (l : list Z) (a b : Z),
    fold_right Z.max (Z.max a b) l = Z.max b (fold_right Z.max a l).
Proof.
  induction l as [|x l IH]; intros a b; cbn; [lia|].
  rewrite IH; lia.
Qed.

Lemma gtb_max : forall a b : Z, (if a >? b then a else b) = Z.max a b.
Proof.
  intros a b; rewrite Z.gtb_ltb.
  destruct (b <? a) eqn:E;
    [apply Z.ltb_lt in E|apply Z.ltb_ge in E]; lia.
Qed.

(** The walk from a record that closes [c] records of its run: the
    transition counter grows by the number of later runs, and [sm]
    takes the larger of its old value, the rest of the current run and
    the later runs, each one short. *)
Lemma walk_runs :
  forall (xs : list Z) (prev : Z) (phi : F) (s : scan_state),
    0 <= c s -> 0 <= sm s ->
    exists r1 later,
      runs (prev :: xs) = r1 :: later
      /\ alpha (walk prev xs phi s) = alpha s + Py.len later
      /\ sm (walk prev xs phi s)
         = match xs with
           | [] => sm s
           | _ => fold_right Z.max (Z.max (sm s) (c s + r1 - 1))
                             (map Z.pred later)
           end.
Proof.
  induction xs as [|x xs IH]; intros prev phi s Hc Hsm.
  - exists 1, []; repeat split; cbn; unfold Py.len; cbn; lia.
  - destruct (runs_cons x xs) as (r' & later' & E & Hr').
    rewrite (runs_cons_cons prev x xs r' later' E).
    cbn [walk].
    set (s1 := walk_step _ prev x phi s).
    destruct (prev =? x) eqn:Epx.
    + (* same run *)
      assert (Hc1 : c s1 = c s + 1)
        by (unfold s1, walk_step; rewrite Epx; reflexivity).
      assert (Ha1 : alpha s1 = alpha s)
        by (unfold s1, walk_step; rewrite Epx; reflexivity).
      destruct xs as [|y xs'].
      * cbn [runs] in E; injection E as <- <-.
        exists 2, []; split; [reflexivity|].
        cbn [walk]; split; [rewrite Ha1; unfold Py.len; cbn; lia|].
        unfold s1, walk_step; rewrite Epx; cbn [negb sm map fold_right].
        rewrite gtb_max; lia.
      * assert (Hs1 : sm s1 = sm s)
          by (unfold s1, walk_step; rewrite Epx; reflexivity).
        destruct (IH x phi s1) as (r1 & later & E1 & Hal & Hsm1);
          [lia|lia|].
        rewrite E in E1; injection E1 as <- <-.
        exists (r' + 1), later'; split; [reflexivity|].
        split; [rewrite Hal, Ha1; reflexivity|].
        rewrite Hsm1, Hs1, Hc1; f_equal; lia.
    + (* a new run *)
      assert (Hc1 : c s1 = 0)
        by (unfold s1, walk_step; rewrite Epx; reflexivity).
      assert (Ha1 : alpha s1 = alpha s + 1)
        by (unfold s1, walk_step; rewrite Epx; reflexivity).
      assert (Hs1 : sm s1 = Z.max (c s) (sm s))
        by (unfold s1, walk_step; rewrite Epx; cbn [negb sm];
            apply gtb_max).
      destruct (IH x phi s1) as (r1 & later & E1 & Hal & Hsm1);
        [lia|lia|].
      rewrite E in E1; injection E1 as <- <-.
      exists 1, (r' :: later'); split; [reflexivity|].
      split.
      { rewrite Hal, Ha1; unfold Py.len; cbn [List.length]; lia. }
      rewrite Hsm1.
      destruct xs as [|y xs'].
      * cbn [runs] in E; injection E as <- <-.
        cbn [map fold_right]; rewrite Hs1; lia.
      * cbn [map fold_right].
        rewrite Hs1, Hc1, fold_max_swap.
        replace (Z.max (sm s) (c s + 1 - 1)) with (Z.max (c s) (sm s)) by lia.
        replace (0 + r' - 1) with (Z.pred r') by lia.
        reflexivity.
Qed.

Lemma scan_by_runs :
  forall (fl : list Z) (phi : F),
    fl <> [] ->
    sm (scan fl phi) = sm_of_runs (runs fl)
    /\ alpha (scan fl phi) = Py.len (runs fl) - 1.
Proof.
  intros [|x xs] phi Hfl; [contradiction|].
  rewrite scan_as_walk.
  set (s0 := {| mu := _; c := 1; sm := _; alpha := 0;
                k_max := x; k_min := x |}).
  destruct (walk_runs xs x phi s0) as (r1 & later & E & Hal & Hsm).
  { cbn; lia. }
  { cbn; destruct xs; lia. }
  destruct (runs_cons x xs) as (r & rs & E' & Hr).
  rewrite E in E'; injection E' as <- <-.
  rewrite E, Hal, Hsm; split.
  - unfold sm_of_runs.
    destruct xs as [|y xs'].
    + cbn [runs] in E; injection E as <- <-; reflexivity.
    + cbn [s0 sm c]; f_equal; lia.
  - cbn [s0 alpha]; unfold Py.len; cbn [List.length]; lia.
Qed.

(** X1: what the scan really leaves in [sm] and [alpha]. For a table
    with at least one record, [sm] is the largest of: the length of the
    first run, and the length minus one of every later run; [alpha] is
    the number of runs minus one. *)
Theorem scan_sm_alpha_by_runs :
  forall (fl : list Z) (phi : F),
    fl <> [] ->
    sm (scan fl phi) = sm_of_runs (runs fl)
    /\ alpha (scan fl phi) = Py.len (runs fl) - 1.
Proof.
  exact scan_by_runs.
Qed.

Lemma fold_max_nonneg : forall l : list Z, 0 <= fold_right Z.max 0 l.
Proof.
  induction l as [|x l IH]; cbn; lia.
Qed.

Lemma sm_of_runs_lower :
  forall (r : Z) (rest : list Z),
    0 <= r -> fold_right Z.max 0 (r :: rest) - 1 <= sm_of_runs (r :: rest).
Proof.
  intros r rest Hr; unfold sm_of_runs.
  induction rest as [|q rest IH]; cbn [map fold_right] in *.
  - lia.
  - pose proof (fold_max_nonneg rest); lia.
Qed.

Lemma sm_of_runs_upper :
  forall (r : Z) (rest : list Z),
    0 <= r -> sm_of_runs (r :: rest) <= fold_right Z.max 0 (r :: rest).
Proof.
  intros r rest Hr; unfold sm_of_runs.
  induction rest as [|q rest IH]; cbn [map fold_right] in *.
  - lia.
  - pose proof (fold_max_nonneg rest); lia.
Qed.

(** X2: [sm] is never larger than the longest run of equal field counts
    and falls short of it by one record at most. *)
Theorem scan_sm_within_one_of_longest_run :
  forall (fl : list Z) (phi : F),
    fl <> [] ->
    longest_run fl - 1 <= sm (scan fl phi) <= longest_run fl.
Proof.
  intros fl phi Hfl.
  destruct (scan_by_runs fl phi Hfl) as [-> _].
  destruct fl as [|x xs]; [contradiction|].
  destruct (runs_cons x xs) as (r & rs & E & Hr).
  unfold longest_run; rewrite E.
  split; [apply sm_of_runs_lower; lia|apply sm_of_runs_upper; lia].
Qed.

Lemma ltb_min : forall a b : Z, (if a <? b then a else b) = Z.min a b.
Proof.
  intros a b; destruct (a <? b) eqn:E;
    [apply Z.ltb_lt in E|apply Z.ltb_ge in E]; lia.
Qed.

Lemma walk_step_extrema :
  forall (last : bool) (k_prev k_i : Z) (phi : F) (s : scan_state),
    k_max (walk_step last k_prev k_i phi s) = Z.max k_i (k_max s)
    /\ k_min (walk_step last k_prev k_i phi s) = Z.min k_i (k_min s).
Proof.
  intros last k_prev k_i phi s; unfold walk_step.
  destruct (negb _); cbn [k_max k_min]; rewrite gtb_max, ltb_min; split;
    reflexivity.
Qed.

Lemma walk_extrema :
  forall (xs : list Z) (prev : Z) (phi : F) (s : scan_state),
    let st := walk prev xs phi s in
    (forall y, In y xs -> k_min st <= y <= k_max st)
    /\ k_min st <= k_min s /\ k_max s <= k_max st
    /\ (k_max st = k_max s \/ In (k_max st) xs)
    /\ (k_min st = k_min s \/ In (k_min st) xs).
Proof.
  induction xs as [|x xs IH]; intros prev phi s; cbn [walk].
  - cbn; refine (conj _ (conj _ (conj _ (conj _ _))));
      try lia; try (left; reflexivity); try (intros y []).
  - set (s1 := walk_step _ prev x phi s).
    destruct (walk_step_extrema
                (match xs with [] => true | _ => false end) prev x phi s)
      as [Hmax Hmin].
    fold s1 in Hmax, Hmin.
    destruct (IH x phi s1) as (Hall & Hlo & Hhi & Hinmax & Hinmin).
    cbv zeta; set (st := walk x xs phi s1) in *.
    refine (conj _ (conj _ (conj _ (conj _ _)))).
    + intros y [<-|Hy]; [lia|apply Hall, Hy].
    + lia.
    + lia.
    + destruct Hinmax as [E|Hin]; [|right; right; exact Hin].
      rewrite E, Hmax.
      destruct (Z.max_spec x (k_max s)) as [[_ ->]|[_ ->]];
        [left; reflexivity|right; left; reflexivity].
    + destruct Hinmin as [E|Hin]; [|right; right; exact Hin].
      rewrite E, Hmin.
      destruct (Z.min_spec x (k_min s)) as [[_ ->]|[_ ->]];
        [right; left; reflexivity|left; reflexivity].
Qed.

(** X3: after the scan [k_max] and [k_min] are the largest and the
    smallest field count of the whole table, first record included, so
    the range [r = k_max - k_min] is never negative. *)
Theorem scan_extrema :
  forall (fl : list Z) (phi : F),
    fl <> [] ->
    In (k_max (scan fl phi)) fl
    /\ In (k_min (scan fl phi)) fl
    /\ forall y, In y fl -> k_min (scan fl phi) <= y <= k_max (scan fl phi).
Proof.
  intros [|x xs] phi Hfl; [contradiction|].
  rewrite scan_as_walk.
  set (s0 := {| mu := _; c := 1; sm := _; alpha := 0;
                k_max := x; k_min := x |}).
  destruct (walk_extrema xs x phi s0) as (Hall & Hlo & Hhi & Hmax & Hmin).
  cbn [s0 k_max k_min] in Hlo, Hhi, Hmax, Hmin.
  refine (conj _ (conj _ _)).
  - destruct Hmax as [->|Hin]; [left; reflexivity|right; exact Hin].
  - destruct Hmin as [->|Hin]; [left; reflexivity|right; exact Hin].
  - intros y [<-|Hy]; [lia|apply Hall, Hy].
Qed.

(** Two scan states with the same integer variables. *)
Lemma scan_step_ints :
  forall (n : nat) (fl : list Z) (phi phi' : F) (s s' : scan_state) (i : nat),
    c s = c s' -> sm s = sm s' -> alpha s = alpha s' ->
    k_max s = k_max s' -> k_min s = k_min s' ->
    let t := scan_step n fl phi s i in
    let t' := scan_step n fl phi' s' i in
    c t = c t' /\ sm t = sm t' /\ alpha t = alpha t'
    /\ k_max t = k_max t' /\ k_min t = k_min t'.
Proof.
  intros n fl phi phi' s s' i Hc Hsm Ha Hmax Hmin; unfold scan_step.
  rewrite Hc, Hsm, Ha, Hmax, Hmin.
  destruct (i =? 0)%nat; [cbn; repeat split; reflexivity|].
  destruct (negb _); cbn; repeat split; reflexivity.
Qed.

Lemma fold_scan_ints :
  forall (n : nat) (fl : list Z) (phi phi' : F) (idx : list nat)
         (s s' : scan_state),
    c s = c s' -> sm s = sm s' -> alpha s = alpha s' ->
    k_max s = k_max s' -> k_min s = k_min s' ->
    let t := fold_left (scan_step n fl phi) idx s in
    let t' := fold_left (scan_step n fl phi') idx s' in
    c t = c t' /\ sm t = sm t' /\ alpha t = alpha t'
    /\ k_max t = k_max t' /\ k_min t = k_min t'.
Proof.
  intros n fl phi phi' idx; induction idx as [|i idx IH];
    intros s s' Hc Hsm Ha Hmax Hmin; cbn [fold_left].
  - repeat split; assumption.
  - destruct (scan_step_ints n fl phi phi' s s' i Hc Hsm Ha Hmax Hmin)
      as (H1 & H2 & H3 & H4 & H5).
    apply IH; assumption.
Qed.

(** X4: the running sum of squared deviations [mu], and with it the
    mean field count [phi] from [avg_fields], never reaches the result:
    [tau_1] is the same whatever [phi] is. *)
Theorem tau_1_ignores_phi :
  forall (n : Z) (fl : list Z) (phi phi' : F),
    tau_1_of n fl phi = tau_1_of n fl phi'.
Proof.
  intros n fl phi phi'; unfold tau_1_of, base_tau_1.
  destruct (fold_scan_ints (List.length fl) fl phi phi'
              (seq 0 (List.length fl))
              {| mu := of_Z 0; c := 0; sm := 0; alpha := 0;
                 k_max := nth 0 fl 0; k_min := nth 0 fl 0 |}
              {| mu := of_Z 0; c := 0; sm := 0; alpha := 0;
                 k_max := nth 0 fl 0; k_min := nth 0 fl 0 |}
              eq_refl eq_refl eq_refl eq_refl eq_refl)
    as (_ & Hsm & Ha & Hmax & Hmin).
  fold (scan fl phi) in Hsm, Ha, Hmax, Hmin.
  fold (scan fl phi') in Hsm, Ha, Hmax, Hmin.
  cbv zeta; rewrite Hsm, Ha, Hmax, Hmin; reflexivity.
Qed.
End ScanProperties.

Lemma scan_sm_alpha_by_runs_witness :
  sm (scan (map Py.len short_first_run) (0%R)) = sm_of_runs (runs (map Py.len short_first_run))
  /\ alpha (scan (map Py.len short_first_run) (0%R))
     = Py.len (runs (map Py.len short_first_run)) - 1.
Proof.
  apply (scan_sm_alpha_by_runs (F := R)).
  discriminate.
Defined.

Lemma scan_sm_within_one_of_longest_run_witness :
  longest_run (map Py.len short_first_run) - 1
  <= sm (scan (map Py.len short_first_run) (0%R))
  <= longest_run (map Py.len short_first_run).
Proof.
  apply (scan_sm_within_one_of_longest_run (F := R)).
  discriminate.
Defined.

Lemma scan_extrema_witness :
  In (k_max (scan (map Py.len short_first_run) (0%R)))
     (map Py.len short_first_run)
  /\ In (k_min (scan (map Py.len short_first_run) (0%R)))
        (map Py.len short_first_run)
  /\ forall y, In y (map Py.len short_first_run) ->
               k_min (scan (map Py.len short_first_run) (0%R)) <= y
               <= k_max (scan (map Py.len short_first_run) (0%R)).
Proof.
  apply (scan_extrema (F := R)).
  discriminate.
Defined.

(* ================================================================== *)
(** * Further properties in exact arithmetic                            *)
(* ================================================================== *)

Section UniformTables.
Local Open Scope R_scope.

Lemma runs_const :
  forall (x : Z) (l : list Z),
    (forall y, In y l -> y = x) -> runs (x :: l) = [Py.len (x :: l)].
Proof.
  intros x l; induction l as [|y l IH]; intros Hl.
  - reflexivity.
  - assert (y = x) by (apply Hl; left; reflexivity); subst y.
    rewrite (runs_cons_cons x x l (Py.len (x :: l)) [])
      by (apply IH; intros y Hy; apply Hl; right; exact Hy).
    rewrite Z.eqb_refl; unfold Py.len; cbn [List.length].
    f_equal; lia.
Qed.

Lemma median_R_const :
  forall (c : R) (l : list R),
    l <> [] -> (forall y, In y l -> y = c) -> Py.median l = ret c.
Proof.
  intros c l Hne Hl; unfold Py.median.
  assert (Hnth : forall i, (i < List.length l)%nat ->
                           nth i (Py.sorted l) 0 = c).
  { intros i Hi; apply Hl, sorted_In, nth_In.
    rewrite sorted_length; exact Hi. }
  rewrite sorted_length.
  destruct l as [|x l]; [contradiction|].
  cbn [List.length Nat.eqb].
  assert (Hhalf : (S (List.length l) / 2 < S (List.length l))%nat)
    by (apply Nat.div_lt; lia).
  destruct (_ mod 2 =? 1)%nat eqn:E.
  - rewrite Hnth by (cbn [List.length]; exact Hhalf); reflexivity.
  - rewrite truediv_int_ok by discriminate.
    rewrite !Hnth by (cbn [List.length]; lia).
    cbn [fdiv fadd of_Z R_Float]; unfold ret; f_equal; lra.
Qed.

Lemma tau_0_of_R_uniform :
  forall (n : Z) (k : Z) (fl : list Z),
    fl <> [] -> (forall y, In y fl -> y = k) -> tau_0_of n fl = ret 1.
Proof.
  intros n k fl Hne Hfl; unfold tau_0_of.
  destruct (n >? 1)%Z; [|reflexivity].
  unfold mad.
  rewrite (median_R_const (IZR k)).
  - cbn [bind ret]; cbv zeta.
    rewrite (median_R_const 0).
    + cbn [bind ret fmul fadd lit of_Z feqb R_Float].
      replace (Reqb (1 + 2 * (0 * (14826 / 10000))) 0) with false
        by (symmetry; apply Reqb_false; lra).
      cbn [negb]; rewrite truediv_R by lra.
      unfold ret; f_equal; field.
    + destruct fl; [contradiction|discriminate].
    + intros y Hy; apply in_map_iff in Hy as (z & <- & Hz).
      rewrite (Hfl z Hz); cbn [fabs fsub of_Z R_Float].
      rewrite Rminus_diag; apply Rabs_R0.
  - destruct fl; [contradiction|discriminate].
  - intros y Hy; apply in_map_iff in Hy as (z & <- & Hz).
    rewrite (Hfl z Hz); reflexivity.
Qed.

Lemma tau_1_of_R_uniform :
  forall (k : Z) (fl : list Z) (phi : R),
    fl <> [] -> (forall y, In y fl -> y = k) ->
    tau_1_of (Py.len fl) fl phi = ret 0.
Proof.
  intros k fl phi Hne Hfl; unfold tau_1_of.
  destruct (scan_by_runs fl phi Hne) as [_ Ha].
  assert (Halpha : alpha (scan fl phi) = 0%Z).
  { rewrite Ha. destruct fl as [|x xs]; [contradiction|].
    rewrite runs_const.
    - unfold Py.len; cbn; lia.
    - intros y Hy. rewrite (Hfl y) by (right; exact Hy).
      symmetry; apply Hfl; left; reflexivity. }
  unfold base_tau_1; rewrite Halpha; cbn [Z.gtb Z.compare andb bind ret].
  destruct (entropy_loop_ok (F := R) (Py.values (Py.Counter Z.eqb fl))
              (Py.len fl)) as [h ->].
  { unfold Py.len; destruct fl; [contradiction|cbn [List.length]; lia]. }
  cbn [bind ret fmul fadd of_Z R_Float]; unfold ret; f_equal; lra.
Qed.
End UniformTables.

Section StructuralEntropy.
Local Open Scope R_scope.










End StructuralEntropy.

Section TypeScoreBounds.
Local Open Scope R_scope.
Variable td : type_detector.
Variable d : Dialect.

Lemma field_score_R_range :
  forall field : string, 1 / 10 <= field_score (F := R) td d field <= 100.
Proof.
  intros field; unfold field_score.
  destruct (detect_type td _ _); cbn [of_Z lit R_Float]; lra.
Qed.

Lemma add_at_length :
  forall (l : list R) (i : nat) (x : R),
    List.length (Py.add_at l i x) = List.length l.
Proof.
  induction l as [|y l IH]; intros [|i] x; cbn; try reflexivity.
  now rewrite IH.
Qed.

Lemma nth_add_at :
  forall (l : list R) (i j : nat) (x : R),
    (i < List.length l)%nat ->
    nth j (Py.add_at l i x) 0 = if (j =? i)%nat then nth j l 0 + x else nth j l 0.
Proof.
  induction l as [|y l IH]; intros i j x Hi; [cbn in Hi; lia|].
  destruct i as [|i], j as [|j]; cbn [Py.add_at nth Nat.eqb fadd R_Float];
    try reflexivity.
  apply IH; cbn in Hi; lia.
Qed.

Lemma max_int_upper :
  forall (x : Z) (l : list Z),
  exists m, Py.max_int (x :: l) = ret m
            /\ In m (x :: l) /\ forall y, In y (x :: l) -> (y <= m)%Z.
Proof.
  intros x l; eexists; split; [reflexivity|].
  revert x; induction l as [|z l IH]; intros x; cbn [fold_left].
  - split; [left; reflexivity|intros y [<-|[]]; lia].
  - destruct (x <? z)%Z eqn:E;
      [apply Z.ltb_lt in E|apply Z.ltb_ge in E].
    + destruct (IH z) as [Hin Hle]; split.
      * right; exact Hin.
      * intros y [<-|Hy]; [|apply Hle, Hy].
        specialize (Hle z (or_introl eq_refl)); lia.
    + destruct (IH x) as [Hin Hle]; split.
      * destruct Hin as [Hin|Hin]; [left; exact Hin|right; right; exact Hin].
      * intros y [<-|[<-|Hy]];
          [apply Hle; left; reflexivity| |apply Hle; right; exact Hy].
        specialize (Hle x (or_introl eq_refl)); lia.
Qed.

(** The cells of a record from column [k] on: the total grows by a
    score per cell, and each of these columns takes one score. *)
Lemma add_cells_bounds :
  forall (cells : list string) (k : nat) (num_cols : Z) (B total : R)
         (cs : list R),
    (Z.of_nat (k + List.length cells) <= num_cols)%Z ->
    Z.of_nat (List.length cs) = num_cols ->
    (forall j, 0 <= nth j cs 0 <= B + (if (j <? k)%nat then 100 else 0)) ->
    let acc := fold_left (add_field td d num_cols)
                         (combine (seq k (List.length cells)) cells)
                         (total, cs) in
    List.length (snd acc) = List.length cs
    /\ (forall j, 0 <= nth j (snd acc) 0
                  <= B + (if (j <? k + List.length cells)%nat
                          then 100 else 0))
    /\ total + 1 / 10 * INR (List.length cells) <= fst acc
       <= total + 100 * INR (List.length cells).
Proof.
  induction cells as [|f cells IH]; intros k num_cols B total cs Hk Hlen Hcs.
  - cbn [List.length seq combine fold_left fst snd INR].
    rewrite Nat.add_0_r; repeat split; try apply Hcs; lra.
  - cbn [List.length seq combine fold_left].
    pose proof (field_score_R_range f) as Hscore.
    set (x := field_score td d f) in *.
    assert (Estep : add_field td d num_cols (total, cs) (k, f)
                    = (total + x, Py.add_at cs k x)).
    { unfold add_field; cbn [fst snd].
      replace (Z.of_nat k <? num_cols)%Z with true
        by (symmetry; apply Z.ltb_lt; cbn [List.length] in Hk; lia).
      reflexivity. }
    rewrite Estep.
    assert (Hkl : (k < List.length cs)%nat)
      by (cbn [List.length] in Hk; lia).
    destruct (IH (S k) num_cols B (total + x) (Py.add_at cs k x))
      as (Hl & Hn & Ht).
    + cbn [List.length] in Hk; lia.
    + rewrite add_at_length; exact Hlen.
    + intros j; rewrite nth_add_at by exact Hkl.
      specialize (Hcs j).
      destruct (j =? k)%nat eqn:Ejk.
      * apply Nat.eqb_eq in Ejk; subst j.
        replace (k <? k)%nat with false in Hcs
          by (symmetry; apply Nat.ltb_ge; lia).
        replace (k <? S k)%nat with true
          by (symmetry; apply Nat.ltb_lt; lia).
        lra.
      * apply Nat.eqb_neq in Ejk.
        destruct (j <? k)%nat eqn:E1.
        -- apply Nat.ltb_lt in E1.
           replace (j <? S k)%nat with true
             by (symmetry; apply Nat.ltb_lt; lia).
           exact Hcs.
        -- apply Nat.ltb_ge in E1.
           replace (j <? S k)%nat with false
             by (symmetry; apply Nat.ltb_ge; lia).
           exact Hcs.
    + rewrite add_at_length in Hl.
      refine (conj Hl (conj _ _)).
      * intros j; specialize (Hn j).
        replace (k + S (List.length cells))%nat
          with (S k + List.length cells)%nat by lia.
        exact Hn.
      * rewrite S_INR; lra.
Qed.

(** Record after record: after [r] records every column total lies
    between 0 and [100 * r] and the grand total between 0.1 and 100
    times the number of fields seen. *)
Lemma add_rows_bounds :
  forall (rows : list (list string)) (num_cols : Z) (r : nat) (nf : R)
         (total : R) (cs : list R),
    (forall row, In row rows -> (Py.len row <= num_cols)%Z) ->
    Z.of_nat (List.length cs) = num_cols ->
    (forall j, 0 <= nth j cs 0 <= 100 * INR r) ->
    1 / 10 * nf <= total <= 100 * nf ->
    let acc := fold_left (add_row td d num_cols) rows (total, cs) in
    let fields := fold_right (fun row n => INR (List.length row) + n) 0 rows in
    List.length (snd acc) = List.length cs
    /\ (forall j, 0 <= nth j (snd acc) 0
                  <= 100 * INR (r + List.length rows))
    /\ 1 / 10 * (nf + fields) <= fst acc <= 100 * (nf + fields).
Proof.
  induction rows as [|row rows IH];
    intros num_cols r nf total cs Hrows Hlen Hcs Htotal.
  - cbn [fold_left fold_right fst snd List.length].
    rewrite Nat.add_0_r, Rplus_0_r; repeat split; try apply Hcs; lra.
  - cbn [fold_left fold_right List.length].
    destruct (add_cells_bounds row 0 num_cols (100 * INR r) total cs)
      as (Hl & Hn & Ht).
    + specialize (Hrows row (or_introl eq_refl)); unfold Py.len in Hrows.
      cbn [Nat.add]; exact Hrows.
    + exact Hlen.
    + intros j; cbn [Nat.ltb Nat.leb]; specialize (Hcs j); lra.
    + change (fold_left (add_field td d num_cols)
                (combine (seq 0 (List.length row)) row) (total, cs))
        with (add_row td d num_cols (total, cs) row) in Hl, Hn, Ht.
      destruct (add_row td d num_cols (total, cs) row)
        as [total1 cs1] eqn:E1.
      cbn [fst snd] in Hl, Hn, Ht.
      destruct (IH num_cols (S r) (nf + INR (List.length row)) total1 cs1)
        as (Hl' & Hn' & Ht').
      * intros row' Hin; apply Hrows; right; exact Hin.
      * rewrite Hl; exact Hlen.
      * intros j; specialize (Hn j); rewrite S_INR.
        destruct (j <? 0 + List.length row)%nat; lra.
      * lra.
      * refine (conj _ (conj _ _)).
        -- rewrite Hl'; exact Hl.
        -- intros j; specialize (Hn' j).
           replace (r + S (List.length rows))%nat
             with (S r + List.length rows)%nat by lia.
           exact Hn'.
        -- rewrite <- Rplus_assoc; exact Ht'.
Qed.

Lemma fields_ge_member :
  forall (t : list (list string)) (row : list string),
    In row t ->
    INR (List.length row)
    <= fold_right (fun row n => INR (List.length row) + n) 0 t.
Proof.
  induction t as [|r t IH]; intros row []; cbn [fold_right].
  - subst r.
    assert (0 <= fold_right (fun row n => INR (List.length row) + n) 0 t).
    { clear; induction t as [|r t IH]; cbn [fold_right]; [lra|].
      pose proof (pos_INR (List.length r)); lra. }
    lra.
  - specialize (IH row H).
    pose proof (pos_INR (List.length r)); lra.
Qed.

Lemma fields_le_area :
  forall (t : list (list string)) (m : R),
    (forall row, In row t -> INR (List.length row) <= m) ->
    fold_right (fun row n => INR (List.length row) + n) 0 t
    <= INR (List.length t) * m.
Proof.
  induction t as [|r t IH]; intros m Hm; cbn [fold_right List.length].
  - cbn; lra.
  - rewrite S_INR.
    specialize (IH m (fun row H => Hm row (or_intror H))).
    specialize (Hm r (or_introl eq_refl)); lra.
Qed.

Lemma type_scoring_step_R_bounds :
  forall (row : list string) (rows : list (list string)),
    let t := row :: rows in
    exists column_averages new_lambda_sum num_cols,
      Py.max_int (map Py.len t) = ret num_cols
      /\ type_scoring_step (F := R) td d t
         = ret (column_averages, new_lambda_sum)
      /\ Py.len column_averages = num_cols
      /\ (forall a, In a column_averages -> 0 <= a <= 100)
      /\ 0 <= new_lambda_sum <= 100 * IZR (Py.len t)
      /\ ((0 < num_cols)%Z -> 1 / 10 <= new_lambda_sum).
Proof.
  intros row rows t.
  destruct (max_int_upper (Py.len row) (map Py.len rows))
    as (m & Em & Hin & Hle).
  change (Py.len row :: map Py.len rows) with (map Py.len t) in Em, Hin, Hle.
  assert (Hm0 : (0 <= m)%Z).
  { apply in_map_iff in Hin as (r & <- & _); unfold Py.len; lia. }
  unfold type_scoring_step.
  change (match t with
          | [] => ret ([], of_Z 0)
          | _ :: _ => ?b
          end) with b.
  rewrite Em; cbn [bind ret]; cbv zeta.
  rewrite mapM_averages by apply len_cons_pos.
  rewrite lambda_sum_total; cbn [bind ret].
  destruct (add_rows_bounds t m 0 0 0 (repeat 0 (Z.to_nat m)))
    as (Hl & Hn & Ht).
  { intros r Hr; apply Hle, in_map, Hr. }
  { rewrite repeat_length; lia. }
  { intros j; rewrite nth_repeat; cbn; lra. }
  { lra. }
  cbn [of_Z R_Float].
  destruct (fold_left (add_row td d m) t (0, repeat 0 (Z.to_nat m)))
    as [total cs] eqn:Eacc.
  cbn [fst snd] in Hl, Hn, Ht |- *.
  rewrite repeat_length in Hl.
  set (fields := fold_right (fun row n => INR (List.length row) + n) 0 t) in *.
  assert (Hrows : 0 < IZR (Py.len t)).
  { unfold t; rewrite len_R_cons; pose proof (len_R_nonneg _ rows); lra. }
  assert (HINR : INR (0 + List.length t) = IZR (Py.len t)).
  { unfold Py.len; rewrite INR_IZR_INZ; reflexivity. }
  rewrite HINR in Hn.
  do 3 eexists; split; [reflexivity|]; split; [reflexivity|].
  split; [|split; [|split]].
  - rewrite len_map; unfold Py.len; rewrite Hl; lia.
  - intros a Ha; apply in_map_iff in Ha as (sc & <- & Hsc).
    destruct (In_nth _ _ 0 Hsc) as (j & _ & <-).
    specialize (Hn j); cbn [fdiv of_Z R_Float].
    split.
    + apply Rmult_le_pos; [lra|left; apply Rinv_0_lt_compat, Hrows].
    + apply Rmult_le_reg_r with (IZR (Py.len t)); [exact Hrows|].
      unfold Rdiv; rewrite Rmult_assoc, Rinv_l by lra; lra.
  - destruct (m >? 0)%Z eqn:E; [|lra].
    rewrite Z.gtb_ltb in E; apply Z.ltb_lt in E.
    assert (Hmpos : 0 < IZR m) by (apply IZR_lt; exact E).
    assert (Hf : fields <= INR (List.length t) * IZR m).
    { apply fields_le_area; intros r Hr.
      rewrite INR_IZR_INZ; apply IZR_le, (Hle (Py.len r)), in_map, Hr. }
    rewrite Rplus_0_l in Ht.
    assert (Hf0 : 0 <= fields).
    { pose proof (fields_ge_member t row (or_introl eq_refl)).
      pose proof (pos_INR (List.length row)); fold fields in H; lra. }
    cbn [fdiv of_Z R_Float]; split.
    + apply Rmult_le_pos; [lra|left; apply Rinv_0_lt_compat, Hmpos].
    + apply Rmult_le_reg_r with (IZR m); [exact Hmpos|].
      unfold Rdiv; rewrite Rmult_assoc, Rinv_l by lra.
      cbn [Nat.add] in HINR; rewrite HINR in Hf; nra.
  - intros Hpos.
    replace (m >? 0)%Z with true
      by (symmetry; rewrite Z.gtb_ltb; apply Z.ltb_lt; exact Hpos).
    assert (Hmpos : 0 < IZR m) by (apply IZR_lt; exact Hpos).
    apply in_map_iff in Hin as (r & Er & Hr).
    pose proof (fields_ge_member t r Hr) as Hge; fold fields in Hge.
    assert (INR (List.length r) = IZR m)
      by (rewrite INR_IZR_INZ; f_equal; exact Er).
    rewrite Rplus_0_l in Ht.
    cbn [fdiv of_Z R_Float].
    apply Rmult_le_reg_r with (IZR m); [exact Hmpos|].
    replace (total / IZR m * IZR m) with total by (field; lra).
    lra.
Qed.
End TypeScoreBounds.

(* ================================================================== *)
(** * Properties of the methods                                         *)
(* ================================================================== *)

Section MethodProperties.
Local Open Scope R_scope.

(** X5: when every record has the same number of fields, [compute]
    returns [tau_0 = 1] and [tau_1 = 0]. *)
Theorem compute_uniform_field_counts :
  forall td d (row : list string) (rows : list (list string)) (k : Z)
         (v : R) tr,
    (forall r, In r (row :: rows) -> Py.len r = k) ->
    exists tau_2 tau_3 ls o' tr',
      compute td {| table := Some (row :: rows); dialect := Some d;
                    lambda_sum := v |} tr
      = (inr [1; 0; tau_2; tau_3; ls], o', tr').
Proof.
  intros td d row rows k v tr Hk.
  destruct (compute_run td d row rows v tr) as (avgs & ls & _ & ->).
  rewrite (tau_0_of_R_uniform _ k).
  2:{ discriminate. }
  2:{ intros y Hy; apply in_map_iff in Hy as (r & <- & Hr); apply Hk, Hr. }
  cbn [bind ret].
  destruct (avg_fields_of_ok (F:=R) row rows) as [phi ->]; cbn [bind ret].
  replace (tau_1_of (Py.len (row :: rows)) (map Py.len (row :: rows)) phi)
    with (tau_1_of (Py.len (map Py.len (row :: rows)))
                   (map Py.len (row :: rows)) phi)
    by (rewrite len_map; reflexivity).
  rewrite (tau_1_of_R_uniform k).
  2:{ discriminate. }
  2:{ intros y Hy; apply in_map_iff in Hy as (r & <- & Hr); apply Hk, Hr. }
  cbn [bind ret].
  destruct (compute_tau2_R_ok avgs) as [tau_2 ->]; cbn [bind ret].
  destruct (tau_3_of_ok (F:=R) (row :: rows)) as [tau_3 ->].
  do 5 eexists; reflexivity.
Qed.



Lemma compute_R_ranges :
  forall td d (row : list string) (rows : list (list string)) (v : R) tr,
    let t := row :: rows in
    exists tau_0 tau_1 tau_2 tau_3 ls,
      compute td {| table := Some t; dialect := Some d; lambda_sum := v |} tr
      = (inr [tau_0; tau_1; tau_2; tau_3; ls],
         {| table := Some t; dialect := Some d; lambda_sum := ls |},
         tr ++ table_events td d t)
      /\ 0 < tau_0 <= 1 /\ 0 <= tau_1 /\ 0 <= tau_2 <= 1 /\ 0 <= tau_3
      /\ 0 <= ls <= 100 * IZR (Py.len t).
Proof.
  intros td d row rows v tr t; subst t.
  destruct (compute_run td d row rows v tr) as (avgs & ls & Hstep & ->).
  destruct (type_scoring_step_R_bounds td d row rows)
    as (avgs' & ls' & nc & _ & Hstep' & _ & _ & Hls & _).
  cbv zeta in Hstep'; rewrite Hstep in Hstep'; injection Hstep' as <- <-.
  destruct (tau_0_of_R_range (Py.len (row :: rows)) (map Py.len (row :: rows)))
    as (tau_0 & -> & H0); [discriminate|].
  cbn [bind ret].
  destruct (avg_fields_of_ok (F:=R) row rows) as [phi ->]; cbn [bind ret].
  destruct (tau_1_of_R_nonneg (map Py.len (row :: rows)) phi)
    as (tau_1 & E1 & H1); [discriminate|].
  rewrite len_map in E1; rewrite E1; cbn [bind ret].
  assert (H2 : exists tau_2, compute_tau2 avgs = ret tau_2 /\ 0 <= tau_2 <= 1).
  { destruct avgs as [|a avgs]; [exists 0; split; [reflexivity|lra]|].
    apply compute_tau2_exact_range. }
  destruct H2 as (tau_2 & -> & H2); cbn [bind ret].
  destruct (tau_3_of_R_nonneg (row :: rows)) as (tau_3 & -> & H3).
  exists tau_0, tau_1, tau_2, tau_3, ls.
  split; [reflexivity|].
  repeat split; try apply H0; try apply H2; try apply Hls; assumption.
Qed.

(** X10: on a table with at least one record the metric vector of
    [compute] satisfies [0 < tau_0 <= 1], [tau_1 >= 0],
    [0 <= tau_2 <= 1], [tau_3 >= 0] and [0 <= lambda_sum <= 100 * n];
    afterwards the field [lambda_sum] of the instance holds the fifth
    metric. *)
Theorem compute_metric_ranges :
  forall td d (t : list (list string)) (v : R) tr,
    t <> [] ->
    exists tau_0 tau_1 tau_2 tau_3 ls o' tr',
      compute td {| table := Some t; dialect := Some d; lambda_sum := v |} tr
      = (inr [tau_0; tau_1; tau_2; tau_3; ls], o', tr')
      /\ lambda_sum o' = ls
      /\ 0 < tau_0 <= 1 /\ 0 <= tau_1 /\ 0 <= tau_2 <= 1 /\ 0 <= tau_3
      /\ 0 <= ls <= 100 * IZR (Py.len t).
Proof.
  intros td d [|row rows] v tr Ht; [contradiction|].
  destruct (compute_R_ranges td d row rows v tr)
    as (tau_0 & tau_1 & tau_2 & tau_3 & ls & Hc & Hr).
  exists tau_0, tau_1, tau_2, tau_3, ls.
  do 2 eexists; split; [exact Hc|]; split; [reflexivity|exact Hr].
Qed.

Lemma overall_score_R_ranges :
  forall td d (row : list string) (rows : list (list string))
         (v delta : R) tr,
    let t := row :: rows in
    delta <> 0 ->
    exists tau_0 tau_1 tau_2 tau_3 ls,
      overall_score td delta
        {| table := Some t; dialect := Some d; lambda_sum := v |} tr
      = (inr (omega' tau_0 tau_1 tau_2 tau_3 ls (Py.len t) delta),
         {| table := Some t; dialect := Some d; lambda_sum := ls |},
         tr ++ table_events td d t)
      /\ compute td {| table := Some t; dialect := Some d; lambda_sum := v |} tr
         = (inr [tau_0; tau_1; tau_2; tau_3; ls],
            {| table := Some t; dialect := Some d; lambda_sum := ls |},
            tr ++ table_events td d t)
      /\ 0 < tau_0 <= 1 /\ 0 <= tau_1 /\ 0 <= tau_2 <= 1 /\ 0 <= tau_3
      /\ 0 <= ls.
Proof.
  intros td d row rows v delta tr t Hd; subst t.
  destruct (compute_R_ranges td d row rows v tr)
    as (tau_0 & tau_1 & tau_2 & tau_3 & ls & Hc & H0 & H1 & H2 & H3 & Hls).
  exists tau_0, tau_1, tau_2, tau_3, ls.
  split; [|split; [exact Hc|repeat split; try apply H0; try apply H2;
                              try apply Hls; assumption]].
  rewrite (overall_score_R_nonempty td d row rows v tr delta _ _ _ _ _ _ _ Hc).
  assert (Hn : 0 < IZR (Py.len (row :: rows))).
  { rewrite len_R_cons; pose proof (len_R_nonneg _ rows); lra. }
  replace (Reqb (tau_1 + IZR (Py.len (row :: rows))) 0) with false
    by (symmetry; apply Reqb_false; lra).
  replace (Reqb (tau_3 + 1) 0) with false
    by (symmetry; apply Reqb_false; lra).
  replace (Reqb delta 0) with false by (symmetry; apply Reqb_false, Hd).
  reflexivity.
Qed.

Lemma omega'_pos :
  forall (tau_0 tau_1 tau_2 tau_3 ls : R) (n : Z) (delta : R),
    0 < tau_0 -> 0 <= tau_1 -> 0 <= tau_2 -> 0 <= tau_3 -> 0 <= ls ->
    0 < IZR n -> 0 < delta ->
    tau_0 / delta < omega' tau_0 tau_1 tau_2 tau_3 ls n delta.
Proof.
  intros tau_0 tau_1 tau_2 tau_3 ls n delta H0 H1 H2 H3 Hls Hn Hd.
  unfold omega'.
  assert (0 < 1 / (tau_1 + IZR n)) by (apply Rdiv_lt_0_compat; lra).
  assert (0 <= tau_2 / IZR n)
    by (apply Rmult_le_pos; [lra|left; apply Rinv_0_lt_compat; lra]).
  assert (0 <= ls / ((1 + tau_3) * IZR n)).
  { apply Rmult_le_pos; [lra|left; apply Rinv_0_lt_compat].
    apply Rmult_lt_0_compat; lra. }
  lra.
Qed.

(** X11: on a table with at least one record and for a positive
    divisor, [overall_score] returns a positive score, larger than
    [tau_0 / delta]. *)
Theorem overall_score_positive :
  forall td d (t : list (list string)) (v delta : R) tr,
    t <> [] -> 0 < delta ->
    exists score o' tr',
      overall_score td delta
        {| table := Some t; dialect := Some d; lambda_sum := v |} tr
      = (inr score, o', tr')
      /\ 0 < score.
Proof.
  intros td d [|row rows] v delta tr Ht Hd; [contradiction|].
  destruct (overall_score_R_ranges td d row rows v delta tr)
    as (tau_0 & tau_1 & tau_2 & tau_3 & ls & Hs & _ & H0 & H1 & H2 & H3 & Hls);
    [lra|].
  do 3 eexists; split; [exact Hs|].
  assert (Hn : 0 < IZR (Py.len (row :: rows))).
  { rewrite len_R_cons; pose proof (len_R_nonneg _ rows); lra. }
  pose proof (omega'_pos tau_0 tau_1 tau_2 tau_3 ls (Py.len (row :: rows))
                delta (proj1 H0) H1 (proj1 H2) H3 Hls Hn Hd).
  assert (0 < tau_0 / delta) by (apply Rdiv_lt_0_compat; lra).
  lra.
Qed.


(** X13: on an empty table [overall_score] returns 0.0 for every
    divisor, 0 included, and calls no collaborator. *)
Theorem overall_score_empty_table :
  forall td d (v delta : R) tr,
    overall_score td delta
      {| table := Some []; dialect := Some d; lambda_sum := v |} tr
    = (inr 0, {| table := Some []; dialect := Some d; lambda_sum := v |}, tr).
Proof.
  exact overall_score_R_empty.
Qed.

End MethodProperties.

Lemma compute_uniform_field_counts_witness :
  exists tau_2 tau_3 ls o' tr',
    compute detect_nothing
      {| table := Some uniform_sample; dialect := Some comma_dialect;
         lambda_sum := 0%R |} []
    = (inr [1%R; 0%R; tau_2; tau_3; ls], o', tr').
Proof.
  apply (compute_uniform_field_counts detect_nothing comma_dialect
           ["a"; "bb"]%string (tl uniform_sample) 2 0%R []).
  intros r Hr; cbn in Hr.
  destruct Hr as [<-|[<-|[<-|[]]]]; reflexivity.
Defined.



Lemma compute_metric_ranges_witness :
  exists tau_0 tau_1 tau_2 tau_3 ls o' tr',
    compute detect_nothing
      {| table := Some short_first_run; dialect := Some comma_dialect;
         lambda_sum := 0%R |} []
    = (inr [tau_0; tau_1; tau_2; tau_3; ls], o', tr')
    /\ lambda_sum o' = ls
    /\ (0 < tau_0 <= 1)%R /\ (0 <= tau_1)%R /\ (0 <= tau_2 <= 1)%R
    /\ (0 <= tau_3)%R
    /\ (0 <= ls <= 100 * IZR (Py.len short_first_run))%R.
Proof.
  apply (compute_metric_ranges detect_nothing comma_dialect short_first_run).
  discriminate.
Defined.

Lemma overall_score_positive_witness :
  exists score o' tr',
    overall_score detect_nothing 10%R
      {| table := Some short_first_run; dialect := Some comma_dialect;
         lambda_sum := 0%R |} []
    = (inr score, o', tr')
    /\ (0 < score)%R.
Proof.
  apply (overall_score_positive detect_nothing comma_dialect short_first_run).
  - discriminate.
  - lra.
Defined.


(* ================================================================== *)
(** * Properties in any arithmetic                                      *)
(* ================================================================== *)

Section AnyArithmetic.
Context {F : Type} `{Float F} `{FloatMath F}.
Variable td : type_detector.

Lemma cells_events :
  forall (d : Dialect) (cells : list string) (k : nat) (num_cols : Z),
    Z.of_nat (k + List.length cells) <= num_cols ->
    flat_map (field_events td d num_cols)
             (combine (seq k (List.length cells)) cells)
    = flat_map (field_calls td d) cells.
Proof.
  intros d cells; induction cells as [|f cells IH]; intros k num_cols Hk.
  - reflexivity.
  - cbn [List.length seq combine flat_map].
    rewrite IH by (cbn [List.length] in Hk; lia).
    unfold field_events at 1; cbn [fst snd].
    replace (Z.of_nat k <? num_cols) with true
      by (symmetry; apply Z.ltb_lt; cbn [List.length] in Hk; lia).
    reflexivity.
Qed.

Lemma max_int_ge :
  forall (l : list Z) (x m y : Z),
    Py.max_int (x :: l) = ret m -> In y (x :: l) -> y <= m.
Proof.
  intros l x m y E Hy.
  destruct (max_int_upper x l) as (m' & E' & _ & Hle).
  rewrite E' in E; injection E as <-; apply Hle, Hy.
Qed.

(** X9: on a table with at least one record [compute_type_scores]
    creates one detector and then, for every field of every record in
    order, calls [trip_quotes] and [detect_type] once each; no field is
    skipped by the test on the column index. *)
Theorem compute_type_scores_calls :
  forall (d : Dialect) (row : list string) (rows : list (list string))
         (v : F) (tr : list event),
    let t := row :: rows in
    exists column_averages o',
      compute_type_scores td
        {| table := Some t; dialect := Some d; lambda_sum := v |} tr
      = (inr column_averages, o',
         tr ++ ev_type_detector :: flat_map (flat_map (field_calls td d)) t).
Proof.
  intros d row rows v tr t; subst t.
  destruct (compute_type_scores_run td d row rows v tr)
    as (avgs & ls & _ & Hrun).
  exists avgs; eexists; rewrite Hrun; do 2 f_equal.
  unfold table_events.
  destruct (Py.max_int (map Py.len (row :: rows))) as [e|m] eqn:Em;
    [discriminate|].
  f_equal.
  assert (G : forall rs : list (list string),
             (forall r, In r rs -> Py.len r <= m) ->
             flat_map (row_events td d m) rs
             = flat_map (flat_map (field_calls td d)) rs).
  { induction rs as [|r rs IH]; intros Hrs; [reflexivity|].
    cbn [flat_map]; rewrite IH by (intros r' Hr'; apply Hrs; right; exact Hr').
    f_equal; unfold row_events, Py.enumerate.
    apply cells_events.
    specialize (Hrs r (or_introl eq_refl)); unfold Py.len in Hrs.
    cbn [Nat.add]; exact Hrs. }
  apply G; intros r Hr.
  apply (max_int_ge (map Py.len rows) (Py.len row) m); [exact Em|].
  change (In (Py.len r) (map Py.len (row :: rows))); apply in_map, Hr.
Qed.

(** X15: [compute] can be repeated: the field it wrote does not change
    what a second call on the same instance returns. *)
Theorem compute_repeatable :
  forall (d : Dialect) (t : list (list string)) (v : F) (tr : list event),
    let first :=
      compute td {| table := Some t; dialect := Some d; lambda_sum := v |} tr in
    fst (fst (compute td (snd (fst first)) (snd first))) = fst (fst first).
Proof.
  intros d [|row rows] v tr first; subst first.
  - rewrite !compute_nil; reflexivity.
  - destruct (compute_run td d row rows v tr) as (a1 & l1 & S1 & ->).
    destruct (structural_part_ok (F := F) row rows) as (tau_0 & tau_1 & E).
    cbv zeta in E.
    destruct (compute_run td d row rows l1
                (tr ++ table_events td d (row :: rows)))
      as (a2 & l2 & S2 & C2).
    rewrite S1 in S2; injection S2 as <- <-.
    rewrite E in C2 |- *; unfold ret in C2 |- *.
    destruct (bind (compute_tau2 a1) _) as [e|[tau_2 tau_3]];
      cbn [fst snd]; rewrite C2; reflexivity.
Qed.

End AnyArithmetic.

Section AvgFields.
Local Open Scope R_scope.

Lemma count_fields_bounds :
  forall (t : list (list string)) (lo hi a : Z),
    (forall r, In r t -> lo <= Py.len r <= hi)%Z ->
    (a + lo * Py.len t
     <= fold_left (fun nk record => nk + Py.len record) t a
     <= a + hi * Py.len t)%Z.
Proof.
  induction t as [|r t IH]; intros lo hi a Ht; cbn [fold_left].
  - unfold Py.len; cbn; lia.
  - specialize (IH lo hi (a + Py.len r)%Z
                   (fun r' H => Ht r' (or_intror H))).
    specialize (Ht r (or_introl eq_refl)).
    unfold Py.len in *; cbn [List.length]; lia.
Qed.

(** X16: on a table with at least one record [avg_fields] returns a
    mean that lies between the smallest and the largest field count,
    and leaves instance and trace alone. *)
Theorem avg_fields_between :
  forall (t : list (list string)) (lo hi : Z) od (v : R) tr,
    t <> [] ->
    (forall r, In r t -> lo <= Py.len r <= hi)%Z ->
    exists phi,
      avg_fields {| table := Some t; dialect := od; lambda_sum := v |} tr
      = (inr phi, {| table := Some t; dialect := od; lambda_sum := v |}, tr)
      /\ IZR lo <= phi <= IZR hi.
Proof.
  intros [|row rows] lo hi od v tr Hne Ht; [contradiction|].
  unfold avg_fields, the_table, mbind, get, mret, lift; cbn [table].
  unfold avg_fields_of.
  rewrite int_truediv_ok by apply len_cons_neq_0.
  eexists; split; [reflexivity|].
  cbn [fdiv of_Z R_Float].
  pose proof (count_fields_bounds (row :: rows) lo hi 0 Ht) as [Hlo Hhi].
  set (nk := fold_left _ _ _) in *.
  assert (Hn : 0 < IZR (Py.len (row :: rows))).
  { rewrite len_R_cons; pose proof (len_R_nonneg _ rows); lra. }
  apply IZR_le in Hlo, Hhi.
  rewrite plus_IZR, mult_IZR in Hlo, Hhi.
  split.
  - apply Rmult_le_reg_r with (IZR (Py.len (row :: rows))); [exact Hn|].
    replace (IZR nk / IZR (Py.len (row :: rows)) * IZR (Py.len (row :: rows)))
      with (IZR nk) by (field; lra).
    lra.
  - apply Rmult_le_reg_r with (IZR (Py.len (row :: rows))); [exact Hn|].
    replace (IZR nk / IZR (Py.len (row :: rows)) * IZR (Py.len (row :: rows)))
      with (IZR nk) by (field; lra).
    lra.
Qed.
End AvgFields.

Lemma avg_fields_between_witness :
  exists phi,
    avg_fields {| table := Some short_first_run;
                  dialect := Some comma_dialect; lambda_sum := 0%R |} []
    = (inr phi, {| table := Some short_first_run;
                   dialect := Some comma_dialect; lambda_sum := 0%R |}, [])
    /\ (IZR 1 <= phi <= IZR 2)%R.
Proof.
  apply (avg_fields_between short_first_run 1 2).
  - discriminate.
  - intros r Hr; cbn in Hr.
    destruct Hr as [<-|[<-|[<-|[]]]]; vm_compute; split; discriminate.
Defined.
